(** * Redux store engine and function composition: a shallow embedding

    The development follows [src/src/compose.js], which holds the two
    pieces of the library that carry invariants: [compose] and
    [createStore] with its closure-local operations [getState],
    [subscribe], [unsubscribe], [dispatch] and [replaceReducer].

    JavaScript values are a small inductive type; the closure variables of
    [createStore] are a record; reducers and listeners are client code,
    given as command trees that may call back into the store, catch what
    it throws, and keep variables of their own.  Client code may loop, so
    the interpreter takes a step budget and answers [None] when it is
    exhausted.

    Left out: the [observable] interop method, which only wraps
    [subscribe] and [getState], and what an enhancer does with the
    construction handed over to it. *)

From stdpp Require Import prelude strings gmap.

Set Default Proof Using "Type".

(** ** Function composition *)

Module Compose.
Section compose.
(** A JavaScript function takes an argument list and has effects; the
    effects are kept abstract as a monad [M]. *)
Context {M : Type → Type} `{!MRet M, !MBind M}.
Context {V : Type} (undefined : V).

Definition fn : Type := list V → M V.

(** [arg => arg]: a missing argument reads as [undefined]. *)
Definition identity : fn := λ args, mret (default undefined (head args)).

(** [(a, b) => (...args) => a(b(...args))] *)
Definition reducer_step (a b : fn) : fn := λ args, b args ≫= λ r, a [r].

(** [Array.prototype.reduce] without an initial value, on a non-empty
    array: the first element seeds the accumulator. *)
Definition reduce (step : fn → fn → fn) (first : fn) (rest : list fn) : fn :=
  foldl step first rest.

Definition compose (funcs : list fn) : fn :=
  match funcs with
  | [] => identity
  | [f] => f
  | f :: rest => reduce reducer_step f rest
  end.
End compose.
End Compose.

(** ** JavaScript values *)

(** Where an object's prototype chain ends. *)
Inductive proto :=
  | ProtoObject              (* Object.prototype: literals, new Object() *)
  | ProtoNull                (* Object.create(null) *)
  | ProtoClass (c : string). (* an instance of an application class *)

(** The functions a store hands out.  Every [subscribe] call returns a new
    [unsubscribe] closure; [NUnsubscribe h] is the one made by the [h]-th
    call. *)
Inductive native :=
  | NDispatch | NSubscribe | NGetState | NReplaceReducer
  | NUnsubscribe (h : nat).

(** Object identity: who evaluated the literal, and the how-manieth. *)
Inductive ident := ByClient (n : nat) | ByStore (n : nat).

#[warnings="-register-all"]
Inductive value :=
  | VUndefined
  | VNull
  | VBool (b : bool)
  | VNumber (z : Z)
  | VString (s : string)
  | VObject (id : ident) (p : proto) (fields : list (string * value))
  | VArray (id : ident) (elems : list value)
  | VFunction (f : nat)      (* a client function, by identity *)
  | VNative (n : native).

Inductive type_tag :=
  | TUndefined | TObject | TBoolean | TNumber | TString | TFunction.

Definition typeof (v : value) : type_tag :=
  match v with
  | VUndefined => TUndefined
  | VNull | VObject _ _ _ | VArray _ _ => TObject
  | VBool _ => TBoolean
  | VNumber _ => TNumber
  | VString _ => TString
  | VFunction _ | VNative _ => TFunction
  end.

Global Instance type_tag_eq_dec : EqDecision type_tag.
Proof. solve_decision. Defined.
Global Instance native_eq_dec : EqDecision native.
Proof. solve_decision. Defined.
Global Instance ident_eq_dec : EqDecision ident.
Proof. solve_decision. Defined.

(** [a === b]: primitives by value, objects and functions by identity. *)
Definition strict_eq (a b : value) : bool :=
  match a, b with
  | VUndefined, VUndefined | VNull, VNull => true
  | VBool x, VBool y => bool_decide (x = y)
  | VNumber x, VNumber y => bool_decide (x = y)
  | VString x, VString y => bool_decide (x = y)
  | VObject i _ _, VObject j _ _ | VArray i _, VArray j _ => bool_decide (i = j)
  | VFunction f, VFunction g => bool_decide (f = g)
  | VNative m, VNative n => bool_decide (m = n)
  | _, _ => false
  end.

(** Own-property read [o.key] on a record; absent keys read [undefined]. *)
Fixpoint get_field (key : string) (fields : list (string * value)) : value :=
  match fields with
  | [] => VUndefined
  | (k, v) :: rest => if bool_decide (k = key) then v else get_field key rest
  end.

Definition get (v : value) (key : string) : value :=
  match v with
  | VObject _ _ fields => get_field key fields
  | _ => VUndefined
  end.

(** Modelled from the spec: [utils/isPlainObject] is imported by the store
    but its source is not part of the sources at hand.  The spec calls an
    action plain when it is "a key-value record whose prototype chain is
    the generic base-object prototype or absent (rejecting arrays,
    callables, and instances of application-defined classes)". *)
Definition isPlainObject (v : value) : bool :=
  match v with
  | VObject _ ProtoObject _ | VObject _ ProtoNull _ => true
  | _ => false
  end.

(** The two reserved action types of [utils/actionTypes], whose source is
    not at hand either: they are taken as given. *)
Record ActionTypesT := { INIT : string; REPLACE : string }.

(** [args[i]] *)
Definition arg (i : nat) (args : list value) : value :=
  default VUndefined (args !! i).

(** [Array.prototype.indexOf]: first index that is [===], or -1. *)
Fixpoint indexOf_from (i : Z) (x : value) (xs : list value) : Z :=
  match xs with
  | [] => (-1)%Z
  | y :: ys => if strict_eq y x then i else indexOf_from (i + 1)%Z x ys
  end.
Definition indexOf (x : value) (xs : list value) : Z := indexOf_from 0 x xs.

(** [xs.splice(start, 1)]: a negative [start] counts from the end. *)
Definition splice1 (start : Z) (xs : list value) : list value :=
  let len := Z.of_nat (length xs) in
  let s := if bool_decide (start < 0)%Z
           then Z.max (len + start) 0 else Z.min start len in
  take (Z.to_nat s) xs ++ drop (S (Z.to_nat s)) xs.

(** How often [l] occurs in an array, and how many subscriptions of [l]
    are live, both up to [===]. *)
Fixpoint occurrences (l : value) (xs : list value) : nat :=
  match xs with
  | [] => 0
  | x :: xs => (if strict_eq x l then 1 else 0) + occurrences l xs
  end.

Fixpoint live (l : value) (subs : list (value * bool)) : nat :=
  match subs with
  | [] => 0
  | (x, b) :: subs => (if b && strict_eq x l then 1 else 0) + live l subs
  end.

(** ** Errors *)

(** Every [throw] of the store, in source order. *)
Inductive store_error :=
  | EnhancerNotFunction      (* Expected the enhancer to be a function. *)
  | ReducerNotFunction       (* Expected the reducer to be a function. *)
  | GetStateWhileReducing    (* You may not call store.getState() while ... *)
  | ListenerNotFunction      (* Expected listener to be a function. *)
  | SubscribeWhileReducing   (* You may not call store.subscribe() while ... *)
  | UnsubscribeWhileReducing (* You may not unsubscribe from a store listener ... *)
  | ActionNotPlainObject     (* Actions must be plain objects. ... *)
  | ActionTypeUndefined      (* Actions may not have an undefined type ... *)
  | DispatchWhileReducing    (* Reducers may not dispatch actions. *)
  | NextReducerNotFunction.  (* Expected the nextReducer to be a function. *)

(** The spec's taxonomy of them (its section 7). *)
Inductive error_class := ConfigurationError | InvalidActionError | ReentrancyError.

Definition classify (e : store_error) : error_class :=
  match e with
  | EnhancerNotFunction | ReducerNotFunction
  | ListenerNotFunction | NextReducerNotFunction => ConfigurationError
  | ActionNotPlainObject | ActionTypeUndefined => InvalidActionError
  | GetStateWhileReducing | SubscribeWhileReducing
  | UnsubscribeWhileReducing | DispatchWhileReducing => ReentrancyError
  end.

Inductive exn :=
  | StoreError (e : store_error)
  | UserThrow (v : value)    (* thrown by client code *)
  | NotCallable.             (* the engine's TypeError on calling a non-function *)

Inductive completion := Normal (v : value) | Abrupt (e : exn).

(** ** Client code *)

(** Reducers and listeners are JavaScript functions supplied by the
    application.  A body is a command tree: it returns, throws, calls a
    function value (its own or one of the store's) and continues with the
    completion of that call, which lets it catch what the call threw, or
    reads and writes the application's own variables, of type [Client]. *)
Inductive prog {Client : Type} :=
  | Ret (v : value)
  | Throw (e : exn)
  | Call (f : value) (args : list value) (k : completion → prog)
  | Load (k : Client → prog)
  | Save (c : Client) (k : prog).
Global Arguments prog : clear implicits.

(** ** The store *)

(** The closure variables of one [createStore] call.  JavaScript arrays are
    mutable and shared, so [currentListeners] and [nextListeners] hold
    references into [arrays]; [nextListeners === currentListeners] compares
    the references. *)
Record store {Client : Type} := mkStore {
  currentReducer : value;
  currentState : value;
  currentListeners : nat;
  nextListeners : nat;
  isDispatching : bool;
  (** every array made by [[]] or [slice()], by reference *)
  arrays : list (list value);
  (** the variables [listener] and [isSubscribed] of each [subscribe] call,
      which its [unsubscribe] closure captures *)
  subscriptions : list (value * bool);
  (** how many object literals the store has evaluated *)
  literals : nat;
  (** the application's variables *)
  client : Client;
  (** history, not in the source: the listeners called at [listener()] in
      [dispatch], oldest first *)
  invoked : list value;
}.
Global Arguments store : clear implicits.
Global Arguments mkStore {_}.

Section Store.
Context {Client : Type}.
Variable ActionTypes : ActionTypesT.
(** The bodies of the application's functions. *)
Variable code : nat → list value → prog Client.

Local Abbreviation store := (store Client).
Local Abbreviation prog := (prog Client).
Local Abbreviation result := (completion * store)%type.

Definition set_currentReducer (r : value) (st : store) : store :=
  mkStore r (currentState st) (currentListeners st) (nextListeners st)
    (isDispatching st) (arrays st) (subscriptions st) (literals st)
    (client st) (invoked st).
Definition set_currentState (s : value) (st : store) : store :=
  mkStore (currentReducer st) s (currentListeners st) (nextListeners st)
    (isDispatching st) (arrays st) (subscriptions st) (literals st)
    (client st) (invoked st).
Definition set_currentListeners (l : nat) (st : store) : store :=
  mkStore (currentReducer st) (currentState st) l (nextListeners st)
    (isDispatching st) (arrays st) (subscriptions st) (literals st)
    (client st) (invoked st).
Definition set_nextListeners (l : nat) (st : store) : store :=
  mkStore (currentReducer st) (currentState st) (currentListeners st) l
    (isDispatching st) (arrays st) (subscriptions st) (literals st)
    (client st) (invoked st).
Definition set_isDispatching (b : bool) (st : store) : store :=
  mkStore (currentReducer st) (currentState st) (currentListeners st)
    (nextListeners st) b (arrays st) (subscriptions st) (literals st)
    (client st) (invoked st).
Definition set_arrays (a : list (list value)) (st : store) : store :=
  mkStore (currentReducer st) (currentState st) (currentListeners st)
    (nextListeners st) (isDispatching st) a (subscriptions st) (literals st)
    (client st) (invoked st).
Definition set_subscriptions (s : list (value * bool)) (st : store) : store :=
  mkStore (currentReducer st) (currentState st) (currentListeners st)
    (nextListeners st) (isDispatching st) (arrays st) s (literals st)
    (client st) (invoked st).
Definition set_literals (n : nat) (st : store) : store :=
  mkStore (currentReducer st) (currentState st) (currentListeners st)
    (nextListeners st) (isDispatching st) (arrays st) (subscriptions st) n
    (client st) (invoked st).
Definition set_client (c : Client) (st : store) : store :=
  mkStore (currentReducer st) (currentState st) (currentListeners st)
    (nextListeners st) (isDispatching st) (arrays st) (subscriptions st)
    (literals st) c (invoked st).
Definition set_invoked (l : list value) (st : store) : store :=
  mkStore (currentReducer st) (currentState st) (currentListeners st)
    (nextListeners st) (isDispatching st) (arrays st) (subscriptions st)
    (literals st) (client st) l.

(** The array a reference points to. *)
Definition array_at (st : store) (r : nat) : list value :=
  default [] (arrays st !! r).

(** [{ type: t }], a new object each time it is evaluated. *)
Definition action_literal (t : string) (st : store) : value * store :=
  (VObject (ByStore (literals st)) ProtoObject [("type", VString t)],
   set_literals (S (literals st)) st).

(** [if (nextListeners === currentListeners)
       nextListeners = currentListeners.slice()] *)
Definition ensureCanMutateNextListeners (st : store) : store :=
  if bool_decide (nextListeners st = currentListeners st) then
    set_nextListeners (length (arrays st))
      (set_arrays (arrays st ++ [array_at st (currentListeners st)]) st)
  else st.

Definition getState (st : store) : result :=
  if isDispatching st then (Abrupt (StoreError GetStateWhileReducing), st)
  else (Normal (currentState st), st).

Definition subscribe (listener : value) (st : store) : result :=
  if negb (bool_decide (typeof listener = TFunction)) then
    (Abrupt (StoreError ListenerNotFunction), st)
  else if isDispatching st then
    (Abrupt (StoreError SubscribeWhileReducing), st)
  else
    (* let isSubscribed = true *)
    let h := length (subscriptions st) in
    let st := set_subscriptions (subscriptions st ++ [(listener, true)]) st in
    let st := ensureCanMutateNextListeners st in
    (* nextListeners.push(listener) *)
    let st := set_arrays
                (alter (λ xs, xs ++ [listener]) (nextListeners st) (arrays st))
                st in
    (Normal (VNative (NUnsubscribe h)), st).

(** The closure returned by the [h]-th [subscribe] call.  A reference to
    a closure that was never made is not a function to call. *)
Definition unsubscribe (h : nat) (st : store) : result :=
  match subscriptions st !! h with
  | None => (Abrupt NotCallable, st)
  | Some (listener, isSubscribed) =>
      if negb isSubscribed then (Normal VUndefined, st)
      else if isDispatching st then
        (Abrupt (StoreError UnsubscribeWhileReducing), st)
      else
        (* isSubscribed = false *)
        let st := set_subscriptions
                    (<[h := (listener, false)]> (subscriptions st)) st in
        let st := ensureCanMutateNextListeners st in
        let index := indexOf listener (array_at st (nextListeners st)) in
        let st := set_arrays
                    (alter (splice1 index) (nextListeners st) (arrays st))
                    st in
        (Normal VUndefined, st)
  end.

(** *** Running client code against the store

    [fuel] bounds the number of nested steps; [None] means it ran out.
    Checks that come before any call need no fuel. *)

(** [currentReducer = nextReducer; dispatch({ type: ActionTypes.REPLACE })] *)
Definition replaceReducer_with (dispatch : value → store → option result)
    (nextReducer : value) (st : store) : option result :=
  if negb (bool_decide (typeof nextReducer = TFunction)) then
    Some (Abrupt (StoreError NextReducerNotFunction), st)
  else
    let st := set_currentReducer nextReducer st in
    let '(a, st) := action_literal (REPLACE ActionTypes) st in
    match dispatch a st with
    | Some (Normal _, st) => Some (Normal VUndefined, st)
    | r => r
    end.

Fixpoint run (fuel : nat) (p : prog) (st : store) {struct fuel}
    : option result :=
  match p with
  | Ret v => Some (Normal v, st)
  | Throw e => Some (Abrupt e, st)
  | Call f args k =>
      match fuel with
      | 0 => None
      | S n =>
          match call n f args st with
          | Some (r, st) => run n (k r) st
          | None => None
          end
      end
  | Load k =>
      match fuel with 0 => None | S n => run n (k (client st)) st end
  | Save c k =>
      match fuel with 0 => None | S n => run n k (set_client c st) end
  end

(** [f(...args)] *)
with call (fuel : nat) (f : value) (args : list value) (st : store)
    {struct fuel} : option result :=
  match f with
  | VFunction id =>
      match fuel with 0 => None | S n => run n (code id args) st end
  | VNative NGetState => Some (getState st)
  | VNative NSubscribe => Some (subscribe (arg 0 args) st)
  | VNative (NUnsubscribe h) => Some (unsubscribe h st)
  | VNative NDispatch =>
      match fuel with 0 => None | S n => dispatch n (arg 0 args) st end
  | VNative NReplaceReducer =>
      match fuel with
      | 0 => None
      | S n => replaceReducer_with (dispatch n) (arg 0 args) st
      end
  | _ => Some (Abrupt NotCallable, st)
  end

with dispatch (fuel : nat) (action : value) (st : store) {struct fuel}
    : option result :=
  if negb (isPlainObject action) then
    Some (Abrupt (StoreError ActionNotPlainObject), st)
  else if bool_decide (typeof (get action "type") = TUndefined) then
    Some (Abrupt (StoreError ActionTypeUndefined), st)
  else if isDispatching st then
    Some (Abrupt (StoreError DispatchWhileReducing), st)
  else
    match fuel with
    | 0 => None
    | S n =>
        (* try { isDispatching = true
                 currentState = currentReducer(currentState, action) }
           finally { isDispatching = false } *)
        let st := set_isDispatching true st in
        match call n (currentReducer st) [currentState st; action] st with
        | None => None
        | Some (Abrupt e, st) => Some (Abrupt e, set_isDispatching false st)
        | Some (Normal s, st) =>
            let st := set_isDispatching false (set_currentState s st) in
            (* const listeners = (currentListeners = nextListeners) *)
            let st := set_currentListeners (nextListeners st) st in
            match notify n (currentListeners st) 0 st with
            | Some (Normal _, st) => Some (Normal action, st)
            | r => r
            end
        end
    end

(** [for (; i < listeners.length; i++) { listeners[i]() }], reading the
    array behind the reference [listeners] afresh on every round. *)
with notify (fuel : nat) (listeners : nat) (i : nat) (st : store)
    {struct fuel} : option result :=
  match array_at st listeners !! i with
  | None => Some (Normal VUndefined, st)
  | Some listener =>
      match fuel with
      | 0 => None
      | S n =>
          match call n listener []
                  (set_invoked (invoked st ++ [listener]) st) with
          | Some (Normal _, st) => notify n listeners (S i) st
          | r => r
          end
      end
  end.

Definition replaceReducer (fuel : nat) : value → store → option result :=
  replaceReducer_with (dispatch fuel).

(** What a [createStore] call comes to. *)
Inductive created :=
  | Created (st : store)  (* returned { dispatch, subscribe, getState, ... } *)
  | Threw (e : exn)
  | Delegated (enhancer reducer preloadedState : value).
                          (* return enhancer(createStore)(reducer, preloadedState) *)

(** [createStore(reducer, preloadedState, enhancer)], called when the
    application's variables are [c]. *)
Definition createStore (fuel : nat) (reducer preloadedState enhancer : value)
    (c : Client) : option created :=
  let '(preloadedState, enhancer) :=
    if bool_decide (typeof preloadedState = TFunction)
       && bool_decide (typeof enhancer = TUndefined)
    then (VUndefined, preloadedState) else (preloadedState, enhancer) in
  if negb (bool_decide (typeof enhancer = TUndefined)) then
    if negb (bool_decide (typeof enhancer = TFunction)) then
      Some (Threw (StoreError EnhancerNotFunction))
    else Some (Delegated enhancer reducer preloadedState)
  else if negb (bool_decide (typeof reducer = TFunction)) then
    Some (Threw (StoreError ReducerNotFunction))
  else
    (* let currentListeners = []; let nextListeners = currentListeners *)
    let st := mkStore reducer preloadedState 0 0 false [[]] [] 0 c [] in
    let '(a, st) := action_literal (INIT ActionTypes) st in
    match dispatch fuel a st with
    | None => None
    | Some (Normal _, st) => Some (Created st)
    | Some (Abrupt e, _) => Some (Threw e)
    end.

(** *** Notions used to state the properties *)

(** Both listener references point at allocated arrays. *)
Definition wf (st : store) : Prop :=
  currentListeners st < length (arrays st)
  ∧ nextListeners st < length (arrays st).

(** What an observer of the store can tell apart: everything but the
    reducer in use, the literal counter and the application's variables. *)
Definition same_observable (st st' : store) : Prop :=
  currentState st' = currentState st
  ∧ currentListeners st' = currentListeners st
  ∧ nextListeners st' = nextListeners st
  ∧ isDispatching st' = isDispatching st
  ∧ arrays st' = arrays st
  ∧ subscriptions st' = subscriptions st
  ∧ invoked st' = invoked st.

(** The array behind [r] can no longer be written to: writes go to
    [nextListeners] after [ensureCanMutateNextListeners]. *)
Definition frozen (r : nat) (st : store) : Prop :=
  nextListeners st = currentListeners st ∨ nextListeners st ≠ r.

(** Subscriptions hold functions, and the staging list holds each
    function as often as it has live subscriptions. *)
Definition consistent (st : store) : Prop :=
  (∀ h l b, subscriptions st !! h = Some (l, b) → typeof l = TFunction)
  ∧ ∀ l, typeof l = TFunction →
      occurrences l (array_at st (nextListeners st))
      = live l (subscriptions st).

(** How the store may have changed across a call. *)
Record evolves (st st' : store) : Prop := {
  ev_wf : wf st → wf st';
  ev_guard : isDispatching st' = isDispatching st;
  ev_reducing : isDispatching st = true → same_observable st st';
  ev_grow : length (arrays st) ≤ length (arrays st');
  ev_frozen : ∀ r, r < length (arrays st) → frozen r st →
                frozen r st' ∧ array_at st' r = array_at st r;
  ev_subs_len : length (subscriptions st) ≤ length (subscriptions st');
  ev_subs_keep : ∀ h l b, subscriptions st !! h = Some (l, b) →
                   ∃ b', subscriptions st' !! h = Some (l, b')
                         ∧ (b = false → b' = false);
  ev_quiet : subscriptions st' = subscriptions st →
             nextListeners st' = nextListeners st
             ∧ (currentListeners st' = currentListeners st
                ∨ currentListeners st' = nextListeners st');
  ev_consistent : wf st → consistent st → consistent st';
  ev_log : invoked st `prefix_of` invoked st';
}.

(** The notification loop over a list taken once, before the first
    listener runs. *)
Fixpoint notify_snapshot (fuel : nat) (snapshot : list value) (st : store)
    {struct snapshot} : option result :=
  match snapshot with
  | [] => Some (Normal VUndefined, st)
  | listener :: rest =>
      match fuel with
      | 0 => None
      | S n =>
          match call n listener []
                  (set_invoked (invoked st ++ [listener]) st) with
          | Some (Normal _, st) => notify_snapshot n rest st
          | r => r
          end
      end
  end.

(** [dispatch] as the spec words it: after the reducer, "the engine
    snapshots activeList = stagingList and invokes each callback in that
    snapshot, in registration order". *)
Definition dispatch_snapshot (fuel : nat) (action : value) (st : store)
    : option result :=
  if negb (isPlainObject action) then
    Some (Abrupt (StoreError ActionNotPlainObject), st)
  else if bool_decide (typeof (get action "type") = TUndefined) then
    Some (Abrupt (StoreError ActionTypeUndefined), st)
  else if isDispatching st then
    Some (Abrupt (StoreError DispatchWhileReducing), st)
  else
    match fuel with
    | 0 => None
    | S n =>
        let st := set_isDispatching true st in
        match call n (currentReducer st) [currentState st; action] st with
        | None => None
        | Some (Abrupt e, st) => Some (Abrupt e, set_isDispatching false st)
        | Some (Normal s, st) =>
            let st := set_isDispatching false (set_currentState s st) in
            let st := set_currentListeners (nextListeners st) st in
            match notify_snapshot n (array_at st (currentListeners st)) st with
            | Some (Normal _, st) => Some (Normal action, st)
            | r => r
            end
        end
    end.

(** A well-formed action: a plain record whose [type] is defined. *)
Definition well_formed (action : value) : Prop :=
  isPlainObject action = true ∧ typeof (get action "type") ≠ TUndefined.

(** [dispatch(a1); ...; dispatch(an)], stopping at the first throw. *)
Fixpoint dispatch_all (fuel : nat) (actions : list value) (st : store)
    : option result :=
  match actions with
  | [] => Some (Normal VUndefined, st)
  | a :: rest =>
      match dispatch fuel a st with
      | Some (Normal _, st) => dispatch_all fuel rest st
      | r => r
      end
  end.

(** A reducer that is a pure function of state and action, as the spec's
    data model takes reducers to be. *)
Definition pure_reducer (r : value) (f : value → value → value) : Prop :=
  ∃ id, r = VFunction id
        ∧ ∀ args, code id args = Ret (f (arg 0 args) (arg 1 args)).

(** A listener that just returns. *)
Definition returning (l : value) : Prop :=
  ∃ id v, l = VFunction id ∧ ∀ args, code id args = Ret v.
End Store.

(** ** A small application

    A counter and a few listeners, to run the store on. *)

Module Scenario.
Definition actionTypes : ActionTypesT :=
  {| INIT := "@@redux/INIT.q.7.x"; REPLACE := "@@redux/REPLACE.q.7.x" |}.

(** [{ type: "INC" }] and a record that has no [type]. *)
Definition inc : value :=
  VObject (ByClient 0) ProtoObject [("type", VString "INC")].
Definition untyped : value :=
  VObject (ByClient 1) ProtoObject [("payload", VNumber 1)].

(** [(state = 0, action) => action.type === "INC" ? state + 1 : state] *)
Definition count (state action : value) : value :=
  let state := match state with VUndefined => VNumber 0 | s => s end in
  if strict_eq (get action "type") (VString "INC") then
    match state with VNumber z => VNumber (z + 1) | s => s end
  else state.

Definition counter : nat := 0.
Definition unsubscribe_self : nat := 1.
Definition subscribe_tick : nat := 2.
Definition tick : nat := 3.
Definition failing : nat := 4.
Definition probe : nat := 5.
Definition idle : nat := 6.

Definition rethrow (r : completion) : prog nat :=
  match r with Normal _ => Ret VUndefined | Abrupt e => Throw e end.

(** The application keeps one variable, a count of ticks. *)
Definition code (id : nat) (args : list value) : prog nat :=
  match id with
  | 0 => Ret (count (arg 0 args) (arg 1 args))
  | 1 => (* a listener that removes itself; it holds the first handle *)
      Call (VNative (NUnsubscribe 0)) [] rethrow
  | 2 => (* a listener that registers [tick] *)
      Call (VNative NSubscribe) [VFunction tick] rethrow
  | 3 => Load (λ c, Save (S c) (Ret VUndefined))
  | 4 => (* a reducer that throws *)
      Throw (UserThrow (VString "boom"))
  | 5 => (* a reducer that calls the first handle and reports how it went *)
      Call (VNative (NUnsubscribe 0)) []
        (λ r, match r with
              | Normal _ => Ret (VString "returned")
              | Abrupt _ => Ret (VString "threw")
              end)
  | _ => Ret VUndefined
  end.

(** The counter store as [createStore] leaves it. *)
Definition created : store nat :=
  mkStore (VFunction counter) (VNumber 0) 0 0 false [[]] [] 1 0 [].

(** After [subscribe(unsubscribe_self); subscribe(subscribe_tick)]. *)
Definition subscribed : store nat :=
  mkStore (VFunction counter) (VNumber 0) 0 1 false
    [[]; [VFunction unsubscribe_self; VFunction subscribe_tick]]
    [(VFunction unsubscribe_self, true); (VFunction subscribe_tick, true)]
    1 0 [].

(** A store with two listeners that just return. *)
Definition watched : store nat :=
  mkStore (VFunction counter) (VNumber 0) 0 1 false
    [[]; [VFunction idle; VFunction idle]]
    [(VFunction idle, true); (VFunction idle, true)] 1 0 [].

(** A store whose reducer throws. *)
Definition fragile : store nat :=
  mkStore (VFunction failing) (VNumber 7) 1 1 false
    [[]; [VFunction tick]] [(VFunction tick, true)] 1 0 [].

(** The [probe] store after [h = subscribe(tick); h()]: the handle is used. *)
Definition probed : store nat :=
  mkStore (VFunction probe) (VString "threw") 0 1 false
    [[]; []] [(VFunction tick, false)] 1 0 [].

(** The same store while its reducer runs. *)
Definition reducing : store nat :=
  mkStore (VFunction probe) (VString "threw") 0 1 true
    [[]; []] [(VFunction tick, false)] 1 0 [].

(** The counter store, one live subscription, while its reducer runs. *)
Definition counting : store nat :=
  mkStore (VFunction counter) (VNumber 0) 1 1 true
    [[]; [VFunction tick]] [(VFunction tick, true)] 1 0 [].
End Scenario.

(** ** Binding action creators

    [bindActionCreators.js].  As for [compose], functions take an argument
    list and have effects in a monad [M]; the [this] that
    [actionCreator.apply(this, arguments)] hands on is left out.  An object
    is the finite map of its own enumerable properties. *)

Module BindActionCreators.
Section bind.
Context {M : Type → Type} `{!MRet M, !MBind M}.
Context {V : Type}.

Local Abbreviation fn := (@Compose.fn M V).

(** The value of a property: a function, or anything else. *)
Inductive property :=
  | PFunction (f : fn)
  | POther (v : V).

(** What can be passed as [actionCreators], by what [typeof] says of it. *)
Inductive argument :=
  | AFunction (f : fn)
  | AObject (props : gmap string property)  (* objects, arrays included *)
  | ANull
  | APrimitive (type : string).  (* typeof gives [type]: undefined, number, ... *)

(** [bindActionCreators expected an object or a function, instead
    received ...]: the error, with what it says it received. *)
Inductive error := ExpectedObjectOrFunction (received : string).

Inductive bound :=
  | BFunction (f : fn)
  | BObject (props : gmap string fn).

(** [function() { return dispatch(actionCreator.apply(this, arguments)) }] *)
Definition bindActionCreator (actionCreator dispatch : fn) : fn :=
  λ args, actionCreator args ≫= λ action, dispatch [action].

(** What the loop body makes of one property: the wrapped function when
    [typeof actionCreator === 'function'], nothing otherwise. *)
Definition bind_property (dispatch : fn) (p : property) : option fn :=
  match p with
  | PFunction f => Some (bindActionCreator f dispatch)
  | POther _ => None
  end.

(** The [for] loop over [keys], filling [boundActionCreators]. *)
Fixpoint bind_keys (keys : list string) (actionCreators : gmap string property)
    (dispatch : fn) (boundActionCreators : gmap string fn) : gmap string fn :=
  match keys with
  | [] => boundActionCreators
  | key :: rest =>
      match actionCreators !! key with
      | Some (PFunction actionCreator) =>
          bind_keys rest actionCreators dispatch
            (<[key := bindActionCreator actionCreator dispatch]>
               boundActionCreators)
      | _ => bind_keys rest actionCreators dispatch boundActionCreators
      end
  end.

(** [Object.keys(actionCreators)] *)
Definition keys_of (actionCreators : gmap string property) : list string :=
  (map_to_list actionCreators).*1.

Definition bindActionCreators (actionCreators : argument) (dispatch : fn)
    : error + bound :=
  match actionCreators with
  | AFunction f => inr (BFunction (bindActionCreator f dispatch))
  | ANull => inl (ExpectedObjectOrFunction "null")
  | APrimitive type => inl (ExpectedObjectOrFunction type)
  | AObject props =>
      inr (BObject (bind_keys (keys_of props) props dispatch ∅))
  end.
End bind.
End BindActionCreators.

(** ** A second small application

    A counter watched by a listener that reads the state and keeps what it
    read. *)

Module Watching.
Definition counter : nat := 0.
Definition reader : nat := 1.
Definition thrower : nat := 2.
Definition idle : nat := 3.
Definition doubler : nat := 4.

(** [(state, action) => 2 * state] *)
Definition double (state action : value) : value :=
  match state with VNumber z => VNumber (2 * z) | s => s end.

(** The application keeps one variable: the state its listener last read. *)
Definition code (id : nat) (args : list value) : prog value :=
  match id with
  | 0 => Ret (Scenario.count (arg 0 args) (arg 1 args))
  | 1 => (* () => { seen = store.getState() } *)
      Call (VNative NGetState) []
        (λ r, match r with
              | Normal v => Save v (Ret VUndefined)
              | Abrupt e => Throw e
              end)
  | 2 => Throw (UserThrow (VString "listener failed"))
  | 4 => Ret (double (arg 0 args) (arg 1 args))
  | 6 => (* () => { unsubscribe(); store.dispatch(inc) }, holding the
            second handle *)
      Call (VNative (NUnsubscribe 1)) []
        (λ _, Call (VNative NDispatch) [Scenario.inc]
                (λ r, match r with
                      | Normal _ => Ret VUndefined
                      | Abrupt e => Throw e
                      end))
  | _ => Ret VUndefined
  end.


(** A counter at 5 with the listeners [idle], [thrower], [reader]. *)
Definition tripped : store value :=
  mkStore (VFunction counter) (VNumber 5) 1 1 false
    [[]; [VFunction idle; VFunction thrower; VFunction reader]]
    [(VFunction idle, true); (VFunction thrower, true); (VFunction reader, true)]
    1 VUndefined [].

(** A counter at 5 with the listeners [idle], [idle]. *)
Definition calm : store value :=
  mkStore (VFunction counter) (VNumber 5) 1 1 false
    [[]; [VFunction idle; VFunction idle]]
    [(VFunction idle, true); (VFunction idle, true)] 1 VUndefined [].

(** A counter at 5 with the listeners [idle], [relay], [idle]. *)
Definition relay : nat := 6.
Definition relayed : store value :=
  mkStore (VFunction counter) (VNumber 5) 1 1 false
    [[]; [VFunction idle; VFunction relay; VFunction idle]]
    [(VFunction idle, true); (VFunction relay, true); (VFunction idle, true)]
    1 VUndefined [].

(** A counter at 5 with two different listeners that just return. *)
Definition quiet : nat := 5.
Definition paired : store value :=
  mkStore (VFunction counter) (VNumber 5) 1 1 false
    [[]; [VFunction idle; VFunction quiet]]
    [(VFunction idle, true); (VFunction quiet, true)] 1 VUndefined [].

(** [store.subscribe(tick)], as a program of the first application. *)
Definition subscribing : prog nat :=
  Call (VNative NSubscribe) [VFunction Scenario.tick] (λ _, Ret VUndefined).

(** The same while its reducer runs. *)
Definition busy : store value :=
  mkStore (VFunction counter) (VNumber 5) 1 1 true
    [[]; [VFunction idle; VFunction idle]]
    [(VFunction idle, true); (VFunction idle, true)] 1 VUndefined [].
End Watching.


(** * Properties *)

(** Runs the conjuncts of a goal one after the other, so that a store
    computed by one is known to the next. *)
Ltac evaluate :=
  repeat (split; [vm_compute; reflexivity|]); vm_compute; reflexivity.


Section StoreFacts.
Context {Client : Type}.
Variable ActionTypes : ActionTypesT.
Variable code : nat → list value → prog Client.

Local Abbreviation store := (store Client).
Local Abbreviation prog := (prog Client).
Implicit Types (st : store) (p : prog) (r : completion).

(** *** Arrays and counts *)

Lemma strict_eq_function x l :
  typeof l = TFunction → strict_eq x l = true → x = l.
Proof.
  destruct l; try done; destruct x; simpl; try done;
    intros _ H; apply bool_decide_eq_true in H; by subst.
Qed.

Lemma strict_eq_refl_function l : typeof l = TFunction → strict_eq l l = true.
Proof. destruct l; try done; intros _; simpl; by apply bool_decide_eq_true. Qed.

Lemma occurrences_app l xs ys :
  occurrences l (xs ++ ys) = occurrences l xs + occurrences l ys.
Proof. induction xs as [|x xs IH]; simpl; [done|]. rewrite IH. lia. Qed.

Lemma live_app l s1 s2 : live l (s1 ++ s2) = live l s1 + live l s2.
Proof. induction s1 as [|[x b] s1 IH]; simpl; [done|]. rewrite IH. lia. Qed.

Lemma live_switch_off l h l0 subs :
  subs !! h = Some (l0, true) →
  live l (<[h := (l0, false)]> subs) + (if strict_eq l0 l then 1 else 0)
  = live l subs.
Proof.
  revert h. induction subs as [|[x b] subs IH]; intros [|h] Hh;
    simpl in *; try done.
  - simplify_eq. simpl. lia.
  - rewrite <- (IH h Hh). lia.
Qed.

Lemma indexOf_from_found i l xs :
  0 < occurrences l xs →
  ∃ pre x post, xs = pre ++ x :: post ∧ strict_eq x l = true
    ∧ occurrences l pre = 0
    ∧ indexOf_from i l xs = (i + Z.of_nat (length pre))%Z.
Proof.
  revert i. induction xs as [|y ys IH]; intros i Hocc; simpl in *; [lia|].
  destruct (strict_eq y l) eqn:Hy.
  - exists [], y, ys. simpl. split_and!; try done. lia.
  - destruct (IH (i + 1)%Z) as (pre & x & post & -> & Hx & Hpre & Hi); [lia|].
    exists (y :: pre), x, post. simpl. rewrite Hy. split_and!; try done. lia.
Qed.

Lemma splice1_middle (pre : list value) x post :
  splice1 (Z.of_nat (length pre)) (pre ++ x :: post) = pre ++ post.
Proof.
  unfold splice1. rewrite bool_decide_eq_false_2 by lia.
  rewrite length_app. simpl.
  rewrite Z.min_l by lia. rewrite Nat2Z.id.
  rewrite take_app_length.
  replace (S (length pre)) with (length pre + 1) by lia.
  rewrite <- drop_drop. by rewrite drop_app_length.
Qed.

(** When the listener is in the array, [indexOf] finds its first
    occurrence and [splice] takes out just that one. *)
Lemma splice_indexOf l xs :
  0 < occurrences l xs →
  ∃ pre x post, xs = pre ++ x :: post ∧ strict_eq x l = true
    ∧ occurrences l pre = 0
    ∧ splice1 (indexOf l xs) xs = pre ++ post.
Proof.
  intros H.
  destruct (indexOf_from_found 0 l xs H) as (pre & x & post & -> & Hx & Hpre & Hi).
  exists pre, x, post. split_and!; try done.
  unfold indexOf. rewrite Hi, Z.add_0_l. apply splice1_middle.
Qed.

(** Writing [f] into the staging array, copy-on-write step included. *)
Lemma mutate_staging f st :
  wf st →
  let st1 := ensureCanMutateNextListeners st in
  let st' := set_arrays (alter f (nextListeners st1) (arrays st1)) st1 in
  nextListeners st' ≠ currentListeners st'
  ∧ currentListeners st' = currentListeners st
  ∧ array_at st' (currentListeners st') = array_at st (currentListeners st)
  ∧ array_at st' (nextListeners st') = f (array_at st (nextListeners st))
  ∧ subscriptions st' = subscriptions st.
Proof.
  intros [Hc Hn]. unfold ensureCanMutateNextListeners.
  case_bool_decide as Hal; simpl; unfold array_at; simpl.
  - split_and!; try done.
    + lia.
    + rewrite list_lookup_alter_ne by lia. by rewrite lookup_app_l.
    + rewrite list_lookup_alter_eq.
      rewrite lookup_app_r by lia. rewrite Nat.sub_diag. simpl.
      by rewrite Hal.
  - split_and!; try done.
    + by rewrite list_lookup_alter_ne.
    + rewrite list_lookup_alter_eq.
      destruct (lookup_lt_is_Some_2 _ _ Hn) as [xs Hxs]. by rewrite Hxs.
Qed.

(** *** How the store evolves *)

Lemma evolves_refl st : evolves st st.
Proof.
  split; try done.
  - intros h l b H. by exists b.
  - intros _. by split; [|left].
Qed.

Lemma same_observable_trans st1 st2 st3 :
  same_observable st1 st2 → same_observable st2 st3 → same_observable st1 st3.
Proof. unfold same_observable. intuition congruence. Qed.

(** Subscriptions are only ever added or switched off, so a store whose
    subscriptions are back to what they were never had others in between. *)
Lemma subscriptions_squeeze st1 st2 st3 :
  evolves st1 st2 → evolves st2 st3 →
  subscriptions st3 = subscriptions st1 → subscriptions st2 = subscriptions st1.
Proof.
  intros E1 E2 Heq. apply list_eq. intros h.
  destruct (subscriptions st1 !! h) as [[l b]|] eqn:H1.
  - destruct (ev_subs_keep _ _ E1 h l b H1) as (b' & H2 & Hb').
    destruct (ev_subs_keep _ _ E2 h l b' H2) as (b'' & H3 & Hb'').
    rewrite Heq, H1 in H3. simplify_eq. rewrite H2.
    destruct b'', b'; try done;
      [by specialize (Hb'' eq_refl)|by specialize (Hb' eq_refl)].
  - apply lookup_ge_None. apply lookup_ge_None in H1.
    pose proof (ev_subs_len _ _ E2) as L2. rewrite Heq in L2. lia.
Qed.

Lemma evolves_trans st1 st2 st3 :
  evolves st1 st2 → evolves st2 st3 → evolves st1 st3.
Proof.
  intros E1 E2.
  pose proof (subscriptions_squeeze _ _ _ E1 E2) as Hsq.
  destruct E1 as [W1 G1 R1 L1 F1 SL1 SK1 Q1 C1 P1],
           E2 as [W2 G2 R2 L2 F2 SL2 SK2 Q2 C2 P2].
  split.
  - auto.
  - congruence.
  - intros H. eapply same_observable_trans; [by apply R1|].
    apply R2. congruence.
  - lia.
  - intros r Hr Hf. destruct (F1 r Hr Hf) as [Hf1 E1].
    destruct (F2 r (Nat.lt_le_trans _ _ _ Hr L1) Hf1) as [Hf2 E2].
    split; [done|congruence].
  - lia.
  - intros h l b H1. destruct (SK1 h l b H1) as (b' & H2 & Hb').
    destruct (SK2 h l b' H2) as (b'' & H3 & Hb''). exists b''. auto.
  - intros Heq. specialize (Hsq Heq).
    destruct (Q1 Hsq) as [N1 K1]. destruct Q2 as [N2 K2]; [congruence|].
    split; [congruence|]. destruct K1, K2; auto; right + left; congruence.
  - auto.
  - by etrans.
Qed.

(** A step that touches none of the listener machinery. *)
Lemma evolves_aside st st' :
  currentState st' = currentState st →
  currentListeners st' = currentListeners st →
  nextListeners st' = nextListeners st →
  isDispatching st' = isDispatching st →
  arrays st' = arrays st →
  subscriptions st' = subscriptions st →
  invoked st' = invoked st →
  evolves st st'.
Proof.
  intros Hs Hc Hn Hd Ha Hsub Hi. split.
  - unfold wf. by rewrite Hc, Hn, Ha.
  - done.
  - done.
  - by rewrite Ha.
  - intros r _ Hr. unfold frozen, array_at in *. by rewrite Hc, Hn, Ha.
  - by rewrite Hsub.
  - intros h l b H. exists b. by rewrite Hsub.
  - intros _. split; [done|by left].
  - unfold consistent, array_at. by rewrite Hn, Ha, Hsub.
  - by rewrite Hi.
Qed.

Lemma evolves_set_client c st : evolves st (set_client c st).
Proof. by apply evolves_aside. Qed.

Lemma evolves_replace_prefix v n st :
  evolves st (set_literals n (set_currentReducer v st)).
Proof. by apply evolves_aside. Qed.

(** Registering or removing a listener while idle: the subscription table
    changes and the write goes to the staging array after the
    copy-on-write step. *)
Lemma evolves_mutate f subs st :
  isDispatching st = false →
  length (subscriptions st) ≤ length subs →
  (∀ h l b, subscriptions st !! h = Some (l, b) →
     ∃ b', subs !! h = Some (l, b') ∧ (b = false → b' = false)) →
  subs ≠ subscriptions st →
  (consistent st → ∀ h l b, subs !! h = Some (l, b) → typeof l = TFunction) →
  (consistent st → ∀ l, typeof l = TFunction →
     occurrences l (f (array_at st (nextListeners st))) = live l subs) →
  let st1 := ensureCanMutateNextListeners (set_subscriptions subs st) in
  evolves st (set_arrays (alter f (nextListeners st1) (arrays st1)) st1).
Proof.
  intros Hd Hlen Hkeep Hne Hfun Hcount st1.
  assert (wf st → consistent st →
          consistent (set_arrays (alter f (nextListeners st1) (arrays st1)) st1))
    as Hcons.
  { intros Hwf Hc.
    destruct (mutate_staging f (set_subscriptions subs st) Hwf)
      as (_ & _ & _ & Hn & Hsub).
    fold st1 in Hn, Hsub. split.
    - rewrite Hsub. by apply Hfun.
    - intros l Hl. rewrite Hn, Hsub. by apply Hcount. }
  revert Hcons. unfold st1, ensureCanMutateNextListeners. simpl.
  case_bool_decide as Hal; simpl; intros Hcons.
  - split; simpl; try done.
    + unfold wf; simpl. rewrite length_alter, length_app. simpl. lia.
    + congruence.
    + rewrite length_alter, length_app. lia.
    + intros r Hr _. unfold frozen; simpl. split; [right; lia|].
      unfold array_at; simpl.
      rewrite list_lookup_alter_ne by lia.
      by rewrite lookup_app_l.
  - split; simpl; try done.
    + unfold wf; simpl. by rewrite length_alter.
    + congruence.
    + by rewrite length_alter.
    + unfold frozen; simpl. intros r Hr [Hf|Hf]; [done|]. split; [by right|].
      unfold array_at; simpl. by rewrite list_lookup_alter_ne.
Qed.

Lemma evolves_subscribe listener st r st' :
  subscribe listener st = (r, st') → evolves st st'.
Proof.
  unfold subscribe. case_bool_decide as Hfun; simpl.
  2: { intros [= <- <-]. apply evolves_refl. }
  destruct (isDispatching st) eqn:Hd.
  { intros [= <- <-]. apply evolves_refl. }
  intros [= <- <-]. apply evolves_mutate; [done| | | | |].
  - rewrite length_app. lia.
  - intros h l b Hh. exists b. split; [|done]. by apply lookup_app_l_Some.
  - intros Heq. apply (f_equal length) in Heq.
    rewrite length_app in Heq. simpl in Heq. lia.
  - intros [Hc _] h l b [Hh|[_ Hh]]%lookup_app_Some; [by eapply Hc|].
    apply list_lookup_singleton_Some in Hh as [_ Hh]. by simplify_eq.
  - intros [_ Hc] l Hl. rewrite occurrences_app, live_app, Hc by done.
    simpl. lia.
Qed.

Lemma evolves_unsubscribe h st r st' :
  unsubscribe h st = (r, st') → evolves st st'.
Proof.
  unfold unsubscribe. destruct (subscriptions st !! h) as [[l0 []]|] eqn:Hh.
  2,3: intros [= <- <-]; apply evolves_refl.
  simpl. destruct (isDispatching st) eqn:Hd.
  { intros [= <- <-]. apply evolves_refl. }
  intros [= <- <-].
  assert (array_at
            (ensureCanMutateNextListeners
               (set_subscriptions (<[h:=(l0, false)]> (subscriptions st)) st))
            (nextListeners
               (ensureCanMutateNextListeners
                  (set_subscriptions (<[h:=(l0, false)]> (subscriptions st)) st)))
          = array_at st (nextListeners st)) as Hsame.
  { unfold ensureCanMutateNextListeners, array_at.
    case_bool_decide as Hal; simpl in *; [|done].
    rewrite lookup_app_r by lia. rewrite Nat.sub_diag. simpl.
    by rewrite Hal. }
  rewrite Hsame.
  apply evolves_mutate; [done| | | | |].
  - by rewrite length_insert.
  - intros h' l' b Hh'. destruct (decide (h' = h)) as [->|Hne].
    + rewrite Hh in Hh'. simplify_eq. exists false.
      split; [|done]. apply list_lookup_insert_eq. by eapply lookup_lt_Some.
    + exists b. by rewrite list_lookup_insert_ne.
  - intros Heq. apply (f_equal (λ s, s !! h)) in Heq. simpl in Heq.
    rewrite list_lookup_insert_eq in Heq by (by eapply lookup_lt_Some).
    congruence.
  - intros [Hc _] h' l b Hh'. destruct (decide (h' = h)) as [->|Hne].
    + rewrite list_lookup_insert_eq in Hh' by (by eapply lookup_lt_Some).
      simplify_eq. by eapply Hc.
    + rewrite list_lookup_insert_ne in Hh' by done. by eapply Hc.
  - intros [Hfun Hc] l Hl.
    pose proof (Hfun _ _ _ Hh) as Hl0.
    pose proof (live_switch_off l0 h l0 _ Hh) as Hlive0.
    rewrite strict_eq_refl_function in Hlive0 by done.
    destruct (splice_indexOf l0 (array_at st (nextListeners st)))
      as (pre & x & post & Hxs & Hx & _ & ->).
    { rewrite Hc by done. lia. }
    apply strict_eq_function in Hx as ->; [|done].
    pose proof (Hc l Hl) as Hcl. rewrite Hxs in Hcl.
    rewrite occurrences_app in Hcl. simpl in Hcl.
    pose proof (live_switch_off l h l0 _ Hh) as Hlive.
    rewrite occurrences_app. lia.
Qed.

Lemma evolves_getState st r st' : getState st = (r, st') → evolves st st'.
Proof.
  unfold getState. destruct (isDispatching st); intros [= <- <-];
    apply evolves_refl.
Qed.

(** A step taken while idle that leaves the listener machinery alone. *)
Lemma evolves_idle st st' :
  isDispatching st = false →
  isDispatching st' = false →
  arrays st' = arrays st →
  currentListeners st' = currentListeners st →
  nextListeners st' = nextListeners st →
  subscriptions st' = subscriptions st →
  invoked st `prefix_of` invoked st' →
  evolves st st'.
Proof.
  intros Hd Hd' Ha Hc Hn Hsub Hi. split.
  - unfold wf. by rewrite Hc, Hn, Ha.
  - congruence.
  - congruence.
  - by rewrite Ha.
  - intros r _ Hr. unfold frozen, array_at in *. by rewrite Hc, Hn, Ha.
  - by rewrite Hsub.
  - intros h l b H. exists b. by rewrite Hsub.
  - intros _. split; [done|by left].
  - unfold consistent, array_at. by rewrite Hn, Ha, Hsub.
  - done.
Qed.

(** Leaving the [try]/[finally] of [dispatch]. *)
Lemma evolves_release st st2 st3 :
  isDispatching st = false →
  evolves (set_isDispatching true st) st2 →
  isDispatching st3 = false →
  arrays st3 = arrays st2 →
  currentListeners st3 = currentListeners st2 →
  nextListeners st3 = nextListeners st2 →
  subscriptions st3 = subscriptions st2 →
  invoked st3 = invoked st2 →
  evolves st st3.
Proof.
  intros Hd [W G R L F SL SK Q C P] Hd3 Ha Hc Hn Hsub Hi. split.
  - unfold wf in *. rewrite Ha, Hc, Hn. exact W.
  - congruence.
  - congruence.
  - rewrite Ha. exact L.
  - intros r Hr Hf. destruct (F r Hr Hf) as [Hf' E]. split.
    + unfold frozen in *. by rewrite Hc, Hn.
    + unfold array_at in *. by rewrite Ha.
  - rewrite Hsub. exact SL.
  - rewrite Hsub. exact SK.
  - rewrite Hsub, Hc, Hn. exact Q.
  - unfold consistent, array_at in *. rewrite Hn, Ha, Hsub. exact C.
  - rewrite Hi. exact P.
Qed.

(** [currentListeners = nextListeners] *)
Lemma evolves_take_snapshot st :
  isDispatching st = false →
  evolves st (set_currentListeners (nextListeners st) st).
Proof.
  intros Hd. split; simpl; try done.
  - unfold wf; simpl. tauto.
  - congruence.
  - intros r _ _. split; [by left|done].
  - intros h l b H. by exists b.
  - intros _. split; [done|by right].
Qed.

(** Whatever client code does, the store changes only in the ways
    [evolves] allows. *)
Lemma interp_evolves fuel :
  (∀ p st r st', run ActionTypes code fuel p st = Some (r, st') → evolves st st')
  ∧ (∀ f args st r st',
       call ActionTypes code fuel f args st = Some (r, st') → evolves st st')
  ∧ (∀ a st r st',
       dispatch ActionTypes code fuel a st = Some (r, st') → evolves st st')
  ∧ (∀ l i st r st', isDispatching st = false →
       notify ActionTypes code fuel l i st = Some (r, st') → evolves st st').
Proof.
  induction fuel as [|n (IHrun & IHcall & IHdisp & IHnot)].
  - split_and!.
    + intros p st r st'; destruct p; simpl; try done;
        intros [= <- <-]; apply evolves_refl.
    + intros f args st r st'; destruct f as [| | | | | | | |[]]; simpl;
        try done; try (intros [= <- <-]; apply evolves_refl).
      * intros [= H]. by eapply evolves_subscribe.
      * intros [= H]. by eapply evolves_getState.
      * intros [= H]. by eapply evolves_unsubscribe.
    + intros a st r st'; simpl.
      repeat case_match; try done; intros [= <- <-]; apply evolves_refl.
    + intros l i st r st' _; simpl.
      repeat case_match; try done; intros [= <- <-]; apply evolves_refl.
  - assert (Hdisp : ∀ a st r st',
               dispatch ActionTypes code (S n) a st = Some (r, st') →
               evolves st st').
    { intros a st r st'; simpl.
      destruct (negb (isPlainObject a)); [intros [= <- <-]; apply evolves_refl|].
      case_bool_decide; [intros [= <- <-]; apply evolves_refl|].
      destruct (isDispatching st) eqn:Hd; [intros [= <- <-]; apply evolves_refl|].
      destruct (call _ _ n _ _ _) as [[[s|e] st2]|] eqn:Hcall; [| |done].
      - apply IHcall in Hcall.
        set (st3 := set_isDispatching false (set_currentState s st2)).
        set (st4 := set_currentListeners (nextListeners st3) st3).
        assert (evolves st st4) as Hev.
        { eapply evolves_trans; [|by apply evolves_take_snapshot].
          by eapply evolves_release. }
        destruct (notify _ _ n _ _ _) as [[[v|e] st5]|] eqn:Hnot; [| |done].
        + intros [= <- <-]. eapply evolves_trans; [exact Hev|].
          by eapply IHnot.
        + intros [= <- <-]. eapply evolves_trans; [exact Hev|].
          by eapply IHnot.
      - apply IHcall in Hcall. intros [= <- <-].
        by eapply evolves_release. }
    split_and!.
    + intros p st r st'; destruct p as [v|e|f args k|k|c k]; simpl.
      * intros [= <- <-]; apply evolves_refl.
      * intros [= <- <-]; apply evolves_refl.
      * destruct (call _ _ n f args st) as [[c st2]|] eqn:Hcall; [|done].
        intros Hrun. eapply evolves_trans; [by eapply IHcall|by eapply IHrun].
      * apply IHrun.
      * intros Hrun. eapply evolves_trans; [apply evolves_set_client|].
        by eapply IHrun.
    + intros f args st r st'; destruct f as [| | | | | | |id|[]]; simpl;
        try (intros [= <- <-]; apply evolves_refl).
      * apply IHrun.
      * apply IHdisp.
      * intros [= H]. by eapply evolves_subscribe.
      * intros [= H]. by eapply evolves_getState.
      * unfold replaceReducer_with.
        destruct (negb _); [intros [= <- <-]; apply evolves_refl|].
        simpl.
        destruct (dispatch _ _ n _ _) as [[[v|e] st2]|] eqn:Hd; [| |done];
          intros [= <- <-];
          (eapply evolves_trans; [apply evolves_replace_prefix|by eapply IHdisp]).
      * intros [= H]. by eapply evolves_unsubscribe.
    + exact Hdisp.
    + intros l i st r st' Hd. simpl.
      destruct (array_at st l !! i) as [li|];
        [|intros [= <- <-]; apply evolves_refl].
      assert (evolves st (set_invoked (invoked st ++ [li]) st)) as Hlog
        by (apply evolves_idle; try done; by apply prefix_app_r).
      destruct (call _ _ n li [] _) as [[[v|e] st2]|] eqn:Hcall; [| |done].
      * apply IHcall in Hcall. intros Hnot.
        eapply evolves_trans; [exact Hlog|].
        eapply evolves_trans; [exact Hcall|].
        eapply IHnot; [|exact Hnot].
        rewrite (ev_guard _ _ Hcall). done.
      * apply IHcall in Hcall. intros [= <- <-].
        by eapply evolves_trans.
Qed.

Lemma call_evolves fuel f args st r st' :
  call ActionTypes code fuel f args st = Some (r, st') → evolves st st'.
Proof. apply interp_evolves. Qed.

Lemma dispatch_evolves fuel a st r st' :
  dispatch ActionTypes code fuel a st = Some (r, st') → evolves st st'.
Proof. apply interp_evolves. Qed.


Lemma run_evolves fuel p st r st' :
  run ActionTypes code fuel p st = Some (r, st') → evolves st st'.
Proof. apply interp_evolves. Qed.

(** [dispatch] past its three checks. *)
Lemma dispatch_unfold n a st :
  well_formed a → isDispatching st = false →
  dispatch ActionTypes code (S n) a st =
    let st1 := set_isDispatching true st in
    match call ActionTypes code n (currentReducer st1) [currentState st1; a] st1 with
    | None => None
    | Some (Abrupt e, st2) => Some (Abrupt e, set_isDispatching false st2)
    | Some (Normal s, st2) =>
        let st3 := set_isDispatching false (set_currentState s st2) in
        let st4 := set_currentListeners (nextListeners st3) st3 in
        match notify ActionTypes code n (currentListeners st4) 0 st4 with
        | Some (Normal _, st5) => Some (Normal a, st5)
        | r => r
        end
    end.
Proof.
  intros [Hp Ht] Hd. simpl. rewrite Hp. simpl.
  rewrite bool_decide_eq_false_2 by done. by rewrite Hd.
Qed.

(** *** The reentrancy guard *)

(** C4.  A [dispatch] entered while the store is idle leaves it idle,
    however it ends: with the action, with what the reducer threw, or
    with what a listener threw.  And what the reducer throws is what
    [dispatch] throws, the guard being released on the way out. *)
Theorem dispatch_releases_guard a st :
  isDispatching st = false →
  (∀ fuel r st', dispatch ActionTypes code fuel a st = Some (r, st') →
     isDispatching st' = false)
  ∧ (∀ n e st2, well_formed a →
       call ActionTypes code n (currentReducer st) [currentState st; a]
         (set_isDispatching true st) = Some (Abrupt e, st2) →
       dispatch ActionTypes code (S n) a st
         = Some (Abrupt e, set_isDispatching false st2)
       ∧ isDispatching (set_isDispatching false st2) = false).
Proof.
  intros Hd. split.
  - intros fuel r st' H. apply dispatch_evolves in H.
    by rewrite (ev_guard _ _ H).
  - intros n e st2 Hwf Hcall. split; [|done].
    rewrite dispatch_unfold by done. simpl in *. by rewrite Hcall.
Qed.

(** C10.  When the reducer throws, [dispatch] throws the same and the
    store is as it was: same state, same listener references and arrays,
    same subscriptions, no listener called, guard released. *)
Theorem failed_reducer_leaves_store_unchanged n a st e st2 :
  well_formed a →
  isDispatching st = false →
  call ActionTypes code n (currentReducer st) [currentState st; a]
    (set_isDispatching true st) = Some (Abrupt e, st2) →
  ∃ st', dispatch ActionTypes code (S n) a st = Some (Abrupt e, st')
         ∧ same_observable st st'.
Proof.
  intros Hwf Hd Hcall. exists (set_isDispatching false st2). split.
  - rewrite dispatch_unfold by done. simpl in *. by rewrite Hcall.
  - apply call_evolves in Hcall.
    destruct (ev_reducing _ _ Hcall eq_refl) as (Hs & Hc & Hn & _ & Ha & Hsub & Hi).
    by repeat split.
Qed.

(** C6.  An action that is not a plain record is refused with one error,
    a plain record without a defined [type] with another; arrays,
    functions and class instances are not plain.  Either way the store
    that comes back is the store that went in, so the state is unchanged
    and no listener was called. *)
Theorem dispatch_rejects_invalid_action fuel a st :
  (isPlainObject a = false →
     dispatch ActionTypes code fuel a st
       = Some (Abrupt (StoreError ActionNotPlainObject), st))
  ∧ (isPlainObject a = true → typeof (get a "type") = TUndefined →
     dispatch ActionTypes code fuel a st
       = Some (Abrupt (StoreError ActionTypeUndefined), st))
  ∧ classify ActionNotPlainObject = InvalidActionError
  ∧ classify ActionTypeUndefined = InvalidActionError
  ∧ ActionNotPlainObject ≠ ActionTypeUndefined
  ∧ (∀ id elems, isPlainObject (VArray id elems) = false)
  ∧ (∀ f, typeof f = TFunction → isPlainObject f = false)
  ∧ (∀ id c fields, isPlainObject (VObject id (ProtoClass c) fields) = false).
Proof.
  split_and!; try done.
  - intros Hp. destruct fuel; simpl; by rewrite Hp.
  - intros Hp Ht. destruct fuel; simpl; rewrite Hp; simpl;
      by rewrite bool_decide_eq_true_2.
  - by intros [].
Qed.

(** C3, as amended.  While the guard is set, [getState], [subscribe] of a
    function, an [unsubscribe] closure that has not been used yet and
    [dispatch] of a well-formed action all throw a reentrancy error and
    leave the store alone.  A used [unsubscribe] closure returns quietly
    instead, and [subscribe] of what is not a function throws a
    configuration error instead. *)
Theorem guard_rejects_reentrant_calls st :
  isDispatching st = true →
  getState st = (Abrupt (StoreError GetStateWhileReducing), st)
  ∧ (∀ l, typeof l = TFunction →
       subscribe l st = (Abrupt (StoreError SubscribeWhileReducing), st))
  ∧ (∀ h l, subscriptions st !! h = Some (l, true) →
       unsubscribe h st = (Abrupt (StoreError UnsubscribeWhileReducing), st))
  ∧ (∀ fuel a, well_formed a →
       dispatch ActionTypes code fuel a st
         = Some (Abrupt (StoreError DispatchWhileReducing), st))
  ∧ classify GetStateWhileReducing = ReentrancyError
  ∧ classify SubscribeWhileReducing = ReentrancyError
  ∧ classify UnsubscribeWhileReducing = ReentrancyError
  ∧ classify DispatchWhileReducing = ReentrancyError
  ∧ (∀ h l, subscriptions st !! h = Some (l, false) →
       unsubscribe h st = (Normal VUndefined, st))
  ∧ (∀ l, typeof l ≠ TFunction →
       subscribe l st = (Abrupt (StoreError ListenerNotFunction), st))
  ∧ classify ListenerNotFunction = ConfigurationError.
Proof.
  intros Hd. split_and!; try done.
  - unfold getState. by rewrite Hd.
  - intros l Hl. unfold subscribe. rewrite bool_decide_eq_true_2 by done.
    simpl. by rewrite Hd.
  - intros h l Hh. unfold unsubscribe. rewrite Hh. simpl. by rewrite Hd.
  - intros fuel a [Hp Ht]. destruct fuel; simpl; rewrite Hp; simpl;
      rewrite bool_decide_eq_false_2 by done; by rewrite Hd.
  - intros h l Hh. unfold unsubscribe. by rewrite Hh.
  - intros l Hl. unfold subscribe. by rewrite bool_decide_eq_false_2.
Qed.

(** C9, as amended.  A used [unsubscribe] closure does nothing and throws
    nothing, whether or not a reducer is running; the first call made
    while idle marks the closure used; nothing client code does later
    makes it usable again; and a call to an unused closure while a reducer
    is running throws a reentrancy error and changes nothing. *)
Theorem unsubscribe_idempotent h l st :
  (subscriptions st !! h = Some (l, false) →
     unsubscribe h st = (Normal VUndefined, st))
  ∧ (subscriptions st !! h = Some (l, true) → isDispatching st = false →
     ∃ st', unsubscribe h st = (Normal VUndefined, st')
            ∧ subscriptions st' !! h = Some (l, false))
  ∧ (subscriptions st !! h = Some (l, false) →
     ∀ fuel p r st', run ActionTypes code fuel p st = Some (r, st') →
       subscriptions st' !! h = Some (l, false))
  ∧ (subscriptions st !! h = Some (l, true) → isDispatching st = true →
     unsubscribe h st = (Abrupt (StoreError UnsubscribeWhileReducing), st)
     ∧ classify UnsubscribeWhileReducing = ReentrancyError).
Proof.
  split_and!.
  - intros Hh. unfold unsubscribe. by rewrite Hh.
  - intros Hh Hd. unfold unsubscribe. rewrite Hh. simpl. rewrite Hd.
    eexists. split; [done|]. simpl.
    unfold ensureCanMutateNextListeners. case_bool_decide; simpl;
      apply list_lookup_insert_eq; by eapply lookup_lt_Some.
  - intros Hh fuel p r st' Hrun. apply run_evolves in Hrun.
    destruct (ev_subs_keep _ _ Hrun h l false Hh) as (b' & H' & Hb').
    by rewrite H', Hb'.
  - intros Hh Hd. split; [|done]. unfold unsubscribe. rewrite Hh. simpl.
    by rewrite Hd.
Qed.


(** *** The two listener lists *)

Lemma subscribe_idle l st :
  wf st → isDispatching st = false → typeof l = TFunction →
  ∃ st', subscribe l st
           = (Normal (VNative (NUnsubscribe (length (subscriptions st)))), st')
    ∧ nextListeners st' ≠ currentListeners st'
    ∧ currentListeners st' = currentListeners st
    ∧ array_at st' (currentListeners st') = array_at st (currentListeners st)
    ∧ array_at st' (nextListeners st') = array_at st (nextListeners st) ++ [l]
    ∧ subscriptions st' = subscriptions st ++ [(l, true)].
Proof.
  intros Hwf Hd Hl. unfold subscribe.
  rewrite bool_decide_eq_true_2 by done. simpl. rewrite Hd.
  eexists. split; [done|].
  apply (mutate_staging (λ xs, xs ++ [l])
           (set_subscriptions (subscriptions st ++ [(l, true)]) st) Hwf).
Qed.

Lemma unsubscribe_idle h l st :
  wf st → isDispatching st = false → subscriptions st !! h = Some (l, true) →
  ∃ st', unsubscribe h st = (Normal VUndefined, st')
    ∧ nextListeners st' ≠ currentListeners st'
    ∧ currentListeners st' = currentListeners st
    ∧ array_at st' (currentListeners st') = array_at st (currentListeners st)
    ∧ array_at st' (nextListeners st')
      = splice1 (indexOf l (array_at st (nextListeners st)))
          (array_at st (nextListeners st))
    ∧ subscriptions st' = <[h := (l, false)]> (subscriptions st).
Proof.
  intros Hwf Hd Hh. unfold unsubscribe. rewrite Hh. simpl. rewrite Hd.
  eexists. split; [done|].
  pose (st0 := set_subscriptions (<[h := (l, false)]> (subscriptions st)) st).
  assert (array_at (ensureCanMutateNextListeners st0)
            (nextListeners (ensureCanMutateNextListeners st0))
          = array_at st (nextListeners st)) as Hsame.
  { destruct Hwf as [Hc Hn]. unfold ensureCanMutateNextListeners, array_at.
    case_bool_decide as Hal; simpl in *; [|done].
    rewrite lookup_app_r by lia. rewrite Nat.sub_diag. simpl.
    by rewrite Hal. }
  fold st0. rewrite Hsame.
  apply (mutate_staging
           (splice1 (indexOf l (array_at st (nextListeners st)))) st0 Hwf).
Qed.

(** In a consistent store the listener of a live subscription is in the
    staging list, and [unsubscribe] takes out its first occurrence. *)
Lemma unsubscribe_removes h l st :
  wf st → consistent st → isDispatching st = false →
  subscriptions st !! h = Some (l, true) →
  ∃ st' pre post, unsubscribe h st = (Normal VUndefined, st')
    ∧ array_at st' (currentListeners st') = array_at st (currentListeners st)
    ∧ array_at st (nextListeners st) = pre ++ l :: post
    ∧ occurrences l pre = 0
    ∧ array_at st' (nextListeners st') = pre ++ post.
Proof.
  intros Hwf [Hfun Hc] Hd Hh.
  destruct (unsubscribe_idle h l st Hwf Hd Hh) as (st' & H & _ & _ & Ha & Hn & _).
  pose proof (Hfun _ _ _ Hh) as Hl.
  pose proof (live_switch_off l h l _ Hh) as Hlive.
  rewrite strict_eq_refl_function in Hlive by done.
  destruct (splice_indexOf l (array_at st (nextListeners st)))
    as (pre & x & post & Hxs & Hx & Hpre & Hsp).
  { rewrite Hc by done. lia. }
  apply strict_eq_function in Hx as ->; [|done].
  exists st', pre, post. split_and!; try done. by rewrite Hn, Hsp.
Qed.

Lemma action_literal_well_formed t st : well_formed (action_literal t st).1.
Proof. done. Qed.

Lemma createStore_aliased fuel reducer preloadedState enhancer c st :
  createStore ActionTypes code fuel reducer preloadedState enhancer c
    = Some (Created st) →
  wf st ∧ currentListeners st = nextListeners st ∧ isDispatching st = false
  ∧ consistent st.
Proof.
  unfold createStore.
  destruct (_ && _); (destruct (negb _); [by destruct (negb _)|]);
    (destruct (negb _); [done|]); simpl;
    (destruct (dispatch _ _ _ _ _) as [[[v|e] st']|] eqn:Hdisp; [|done|done]);
    intros [= ->].
  all: destruct fuel as [|n]; [done|].
  all: rewrite dispatch_unfold in Hdisp by done; simpl in Hdisp.
  all: destruct (call _ _ _ _ _ _) as [[[s|e] st2]|] eqn:Hcall; [|done|done].
  all: apply call_evolves in Hcall.
  all: destruct (ev_reducing _ _ Hcall eq_refl)
         as (_ & Hc & Hn & Hg & Ha & Hsub & _).
  all: simpl in *.
  all: assert (array_at (set_currentListeners (nextListeners st2)
                 (set_isDispatching false (set_currentState s st2)))
                 (nextListeners st2) !! 0 = None) as Hempty
         by (unfold array_at; simpl; by rewrite Ha, Hn).
  all: destruct n; simpl in Hdisp; rewrite Hempty in Hdisp.
  all: injection Hdisp as <- <-.
  all: unfold wf, consistent, array_at; simpl; rewrite Ha, Hn, Hsub; simpl.
  all: split_and!; done || lia.
Qed.





(** *** The notification pass *)

(** The loop reads the array afresh on every round, but a frozen array
    cannot change under it: the loop is the loop over the array's value
    at the start. *)
Lemma notify_is_snapshot fuel : ∀ l i st,
  isDispatching st = false → l < length (arrays st) → frozen l st →
  notify ActionTypes code fuel l i st
  = notify_snapshot ActionTypes code fuel (drop i (array_at st l)) st.
Proof.
  induction fuel as [|n IH]; intros l i st Hd Hl Hf.
  - simpl. destruct (array_at st l !! i) as [li|] eqn:Hi.
    + by rewrite (drop_S _ _ _ Hi).
    + by rewrite drop_ge by by apply lookup_ge_None.
  - simpl. destruct (array_at st l !! i) as [li|] eqn:Hi.
    + rewrite (drop_S _ _ _ Hi). simpl.
      assert (evolves st (set_invoked (invoked st ++ [li]) st)) as Hlog
        by (apply evolves_idle; try done; by apply prefix_app_r).
      destruct (call _ _ n li [] _) as [[[v|e] st2]|] eqn:Hcall; try done.
      apply call_evolves in Hcall.
      pose proof (evolves_trans _ _ _ Hlog Hcall) as Hev.
      destruct (ev_frozen _ _ Hev l Hl Hf) as [Hf2 Ha2].
      rewrite IH.
      * by rewrite Ha2.
      * by rewrite (ev_guard _ _ Hev).
      * pose proof (ev_grow _ _ Hev). lia.
      * done.
    + by rewrite drop_ge by by apply lookup_ge_None.
Qed.

Lemma dispatch_is_snapshot fuel a st :
  wf st →
  dispatch ActionTypes code fuel a st
  = dispatch_snapshot ActionTypes code fuel a st.
Proof.
  intros Hwf. unfold dispatch_snapshot.
  destruct fuel as [|n]; simpl; [done|].
  destruct (negb _); [done|]. case_bool_decide; [done|].
  destruct (isDispatching st) eqn:Hd; [done|].
  destruct (call _ _ n _ _ _) as [[[s|e] st2]|] eqn:Hcall; [|done|done].
  apply call_evolves in Hcall.
  set (st3 := set_isDispatching false (set_currentState s st2)).
  set (st4 := set_currentListeners (nextListeners st3) st3).
  assert (evolves st st4) as Hev4.
  { eapply evolves_trans; [|by apply evolves_take_snapshot].
    by eapply evolves_release. }
  rewrite notify_is_snapshot; [done|done| |by left].
  by destruct (ev_wf _ _ Hev4 Hwf).
Qed.

(** Every listener of the list is called, in order; calls made from
    nested dispatches may come in between. *)
Lemma notify_snapshot_log ls : ∀ fuel st v st',
  isDispatching st = false →
  notify_snapshot ActionTypes code fuel ls st = Some (Normal v, st') →
  ∃ ext, invoked st' = invoked st ++ ext ∧ ls `sublist_of` ext.
Proof.
  induction ls as [|l ls IH]; intros fuel st v st' Hd; simpl.
  - intros [= <- <-]. exists []. by rewrite app_nil_r.
  - destruct fuel as [|n]; [done|].
    destruct (call _ _ n l [] _) as [[[w|e] st2]|] eqn:Hcall; [|done|done].
    apply call_evolves in Hcall. intros Hrest.
    destruct (ev_log _ _ Hcall) as [e1 He1]. simpl in He1.
    destruct (IH n st2 v st') as (e2 & He2 & Hsub); [|done|].
    { by rewrite (ev_guard _ _ Hcall). }
    exists (l :: e1 ++ e2). split.
    + rewrite He2, He1. by rewrite <- !app_assoc.
    + apply sublist_skip. by apply sublist_inserts_l.
Qed.

Lemma dispatch_calls_staged fuel a st v st' :
  wf st → isDispatching st = false →
  dispatch ActionTypes code fuel a st = Some (Normal v, st') →
  ∃ ext, invoked st' = invoked st ++ ext
         ∧ array_at st (nextListeners st) `sublist_of` ext.
Proof.
  intros Hwf Hd. rewrite dispatch_is_snapshot by done. unfold dispatch_snapshot.
  destruct (negb _); [done|]. case_bool_decide; [done|]. rewrite Hd.
  destruct fuel as [|n]; [done|].
  destruct (call _ _ n _ _ _) as [[[s|e] st2]|] eqn:Hcall; [|done|done].
  apply call_evolves in Hcall.
  destruct (ev_reducing _ _ Hcall eq_refl) as (_ & _ & Hn & _ & Ha & _ & Hi).
  simpl in *.
  destruct (notify_snapshot _ _ _ _ _) as [[[w|e] st5]|] eqn:Hnot; [|done|done].
  intros [= <- <-].
  apply notify_snapshot_log in Hnot as (ext & Hext & Hsub); [|done].
  simpl in *. exists ext. rewrite Hext, Hi. split; [done|].
  unfold array_at in *. simpl in *. by rewrite Hn, Ha in Hsub.
Qed.

(** C2.  The notification pass of [dispatch] runs over the staging list
    as it was when the pass began, whatever the listeners do meanwhile:
    every listener staged when [dispatch] is entered is called, in order,
    one that removes itself included.  A [subscribe] made while the store
    is idle, in a pass included, puts the listener at the end of the
    staging list, an [unsubscribe] that takes effect takes the listener's
    first occurrence out of it, and both leave the list of the pass as it
    was: nothing client code does changes an array that a pass is reading.
    The next [dispatch] starts its pass from the staging list. *)
Theorem notification_pass_uses_snapshot st :
  wf st → consistent st →
  (∀ fuel a, dispatch ActionTypes code fuel a st
             = dispatch_snapshot ActionTypes code fuel a st)
  ∧ (∀ fuel a v st', isDispatching st = false →
       dispatch ActionTypes code fuel a st = Some (Normal v, st') →
       ∃ ext, invoked st' = invoked st ++ ext
              ∧ array_at st (nextListeners st) `sublist_of` ext)
  ∧ (∀ l, isDispatching st = false → typeof l = TFunction →
       ∃ h st', subscribe l st = (Normal h, st')
         ∧ array_at st' (currentListeners st')
           = array_at st (currentListeners st)
         ∧ array_at st' (nextListeners st')
           = array_at st (nextListeners st) ++ [l])
  ∧ (∀ h l, isDispatching st = false →
       subscriptions st !! h = Some (l, true) →
       ∃ st' pre post, unsubscribe h st = (Normal VUndefined, st')
         ∧ array_at st' (currentListeners st')
           = array_at st (currentListeners st)
         ∧ array_at st (nextListeners st) = pre ++ l :: post
         ∧ occurrences l pre = 0
         ∧ array_at st' (nextListeners st') = pre ++ post)
  ∧ (∀ fuel p r st' l, frozen l st → l < length (arrays st) →
       run ActionTypes code fuel p st = Some (r, st') →
       array_at st' l = array_at st l ∧ wf st' ∧ consistent st').
Proof.
  intros Hwf Hcons. split_and!.
  - intros fuel a. by apply dispatch_is_snapshot.
  - intros fuel a v st' Hd. by apply dispatch_calls_staged.
  - intros l Hd Hl.
    destruct (subscribe_idle l st Hwf Hd Hl) as (st' & H & _ & _ & Hc & Hn & _).
    by exists (VNative (NUnsubscribe (length (subscriptions st)))), st'.
  - intros h l Hd Hh. by apply unsubscribe_removes.
  - intros fuel p r st' l Hf Hl Hrun. apply run_evolves in Hrun.
    destruct (ev_frozen _ _ Hrun l Hl Hf) as [_ Ha].
    split_and!; [done|by apply (ev_wf _ _ Hrun)|by apply (ev_consistent _ _ Hrun)].
Qed.

(** *** Dispatching to a pure reducer *)

Lemma set_invoked_same st : set_invoked (invoked st) st = st.
Proof. by destruct st. Qed.

Lemma run_Ret fuel v st :
  run ActionTypes code fuel (Ret v) st = Some (Normal v, st).
Proof. by destruct fuel. Qed.

Lemma notify_snapshot_returning ls : ∀ fuel st,
  Forall (returning code) ls → length ls < fuel →
  notify_snapshot ActionTypes code fuel ls st
  = Some (Normal VUndefined, set_invoked (invoked st ++ ls) st).
Proof.
  induction ls as [|l ls IH]; intros fuel st Hall Hfuel; simpl.
  - by rewrite app_nil_r, set_invoked_same.
  - apply Forall_cons in Hall as [(id & v & -> & Hcode) Hall].
    simpl in Hfuel.
    destruct fuel as [|[|n]]; [lia|lia|]. simpl. rewrite Hcode, run_Ret.
    rewrite IH by (done || lia). simpl.
    by rewrite <- app_assoc.
Qed.

(** With a pure reducer and listeners that just return, [dispatch] comes
    back with the action, the reducer's result stored and every staged
    listener called once, in order. *)
Lemma dispatch_pure f fuel a st :
  pure_reducer code (currentReducer st) f →
  wf st → isDispatching st = false → well_formed a →
  Forall (returning code) (array_at st (nextListeners st)) →
  length (array_at st (nextListeners st)) + 2 ≤ fuel →
  ∃ st', dispatch ActionTypes code fuel a st = Some (Normal a, st')
    ∧ currentState st' = f (currentState st) a
    ∧ currentReducer st' = currentReducer st
    ∧ isDispatching st' = false
    ∧ arrays st' = arrays st
    ∧ nextListeners st' = nextListeners st
    ∧ currentListeners st' = nextListeners st
    ∧ subscriptions st' = subscriptions st
    ∧ invoked st' = invoked st ++ array_at st (nextListeners st).
Proof.
  intros (id & Hr & Hcode) Hwf Hd Ha Hall Hfuel.
  rewrite dispatch_is_snapshot by done.
  destruct Ha as [Hp Ht]. unfold dispatch_snapshot.
  rewrite Hp. simpl. rewrite bool_decide_eq_false_2 by done. rewrite Hd.
  destruct fuel as [|[|n]]; [lia|lia|]. simpl. rewrite Hr. simpl.
  rewrite Hcode, run_Ret. unfold array_at at 1. simpl.
  fold (array_at st (nextListeners st)).
  rewrite notify_snapshot_returning by (done || lia).
  eexists. split; [done|]. by simpl.
Qed.

(** C5.  Whenever [dispatch] returns, what it returns is the action it was
    given, the very same value.  And it does return, given enough fuel, when the
    reducer is pure and the staged listeners just return. *)
Theorem dispatch_returns_action a st :
  (∀ fuel v st',
     dispatch ActionTypes code fuel a st = Some (Normal v, st') → v = a)
  ∧ (∀ f fuel,
       pure_reducer code (currentReducer st) f →
       wf st → isDispatching st = false → well_formed a →
       Forall (returning code) (array_at st (nextListeners st)) →
       length (array_at st (nextListeners st)) + 2 ≤ fuel →
       ∃ st', dispatch ActionTypes code fuel a st = Some (Normal a, st')).
Proof.
  split.
  - intros fuel v st'. destruct fuel as [|n]; simpl;
      (destruct (negb _); [done|]); (case_bool_decide; [done|]);
      (destruct (isDispatching st); [done|]); [done|].
    destruct (call _ _ _ _ _ _) as [[[s|e] st2]|]; [|done|done].
    destruct (notify _ _ _ _ _ _) as [[[w|e] st5]|]; [|done|done].
    by intros [= <- _].
  - intros f fuel Hr Hwf Hd Ha Hall Hfuel.
    destruct (dispatch_pure f fuel a st) as (st' & H & _); try done.
    by exists st'.
Qed.

Lemma dispatch_all_pure f n acts : ∀ st,
  pure_reducer code (currentReducer st) f →
  wf st → isDispatching st = false →
  array_at st (nextListeners st) = [] →
  Forall well_formed acts →
  ∃ st', dispatch_all ActionTypes code (S (S n)) acts st
           = Some (Normal VUndefined, st')
    ∧ currentState st' = foldl f (currentState st) acts
    ∧ isDispatching st' = false.
Proof.
  induction acts as [|a acts IH]; intros st Hr Hwf Hd Hnil Hacts.
  - by exists st.
  - apply Forall_cons in Hacts as [Ha Hacts].
    destruct (dispatch_pure f (S (S n)) a st)
      as (st1 & H1 & Hs & Hr1 & Hd1 & Harr & Hn & Hc & _); try done.
    { by rewrite Hnil. }
    { rewrite Hnil. simpl. lia. }
    destruct (IH st1) as (st' & H' & Hs' & Hd'); try done.
    + by rewrite Hr1.
    + destruct Hwf. unfold wf. rewrite Hc, Hn, Harr. done.
    + unfold array_at in *. by rewrite Hn, Harr.
    + exists st'. split; [|by rewrite Hs', Hs].
      cbn [dispatch_all]. by rewrite H1.
Qed.

(** C1.  Built without an enhancer around a pure reducer [f], the store
    starts in the state [f] makes of the preloaded state and the INIT
    action; after any run of well-formed actions [getState] gives the left
    fold of [f] over them from there. *)
Theorem dispatch_sequence_is_fold reducer f preloadedState actions c n :
  pure_reducer code reducer f →
  typeof preloadedState ≠ TFunction →
  Forall well_formed actions →
  ∃ st0 st,
    createStore ActionTypes code (S (S n)) reducer preloadedState VUndefined c
      = Some (Created st0)
    ∧ currentState st0
      = f preloadedState
          (VObject (ByStore 0) ProtoObject
             [("type", VString (INIT ActionTypes))])
    ∧ dispatch_all ActionTypes code (S (S n)) actions st0
      = Some (Normal VUndefined, st)
    ∧ getState st = (Normal (foldl f (currentState st0) actions), st).
Proof.
  intros Hpure Hpre Hacts. unfold createStore.
  rewrite (bool_decide_eq_false_2 (typeof preloadedState = TFunction)) by done.
  cbn [andb]. rewrite bool_decide_eq_true_2 by done. cbn [negb].
  destruct Hpure as (id & -> & Hcode).
  rewrite bool_decide_eq_true_2 by done. cbn [negb action_literal].
  set (st00 := set_literals _ _).
  set (a0 := VObject _ _ _).
  destruct (dispatch_pure f (S (S n)) a0 st00)
    as (st0 & H0 & Hs & Hr0 & Hd0 & Harr & Hn & Hc & _); try done.
  { by exists id. }
  { unfold wf. simpl. lia. }
  { simpl. lia. }
  rewrite H0.
  destruct (dispatch_all_pure f n actions st0) as (st & H & Hst & Hd); try done.
  - rewrite Hr0. by exists id.
  - unfold wf. rewrite Hc, Hn, Harr. simpl. lia.
  - unfold array_at. by rewrite Hn, Harr.
  - exists st0, st. split_and!; try done.
    unfold getState. by rewrite Hd, Hst.
Qed.
(** *** More fuel changes nothing *)

Lemma run_Call_S n f args k st :
  run ActionTypes code (S n) (Call f args k) st
  = match call ActionTypes code n f args st with
    | Some (r, st) => run ActionTypes code n (k r) st
    | None => None
    end.
Proof. done. Qed.

Lemma dispatch_S n a st :
  dispatch ActionTypes code (S n) a st
  = if negb (isPlainObject a) then
      Some (Abrupt (StoreError ActionNotPlainObject), st)
    else if bool_decide (typeof (get a "type") = TUndefined) then
      Some (Abrupt (StoreError ActionTypeUndefined), st)
    else if isDispatching st then
      Some (Abrupt (StoreError DispatchWhileReducing), st)
    else
      let st := set_isDispatching true st in
      match call ActionTypes code n (currentReducer st) [currentState st; a] st with
      | None => None
      | Some (Abrupt e, st) => Some (Abrupt e, set_isDispatching false st)
      | Some (Normal s, st) =>
          let st := set_isDispatching false (set_currentState s st) in
          let st := set_currentListeners (nextListeners st) st in
          match notify ActionTypes code n (currentListeners st) 0 st with
          | Some (Normal _, st) => Some (Normal a, st)
          | r => r
          end
      end.
Proof. done. Qed.

Lemma notify_S n l i st :
  notify ActionTypes code (S n) l i st
  = match array_at st l !! i with
    | None => Some (Normal VUndefined, st)
    | Some listener =>
        match call ActionTypes code n listener []
                (set_invoked (invoked st ++ [listener]) st) with
        | Some (Normal _, st) => notify ActionTypes code n l (S i) st
        | r => r
        end
    end.
Proof. done. Qed.

Lemma call_replaceReducer_S n args st :
  call ActionTypes code (S n) (VNative NReplaceReducer) args st
  = replaceReducer ActionTypes code n (arg 0 args) st.
Proof. done. Qed.

Lemma interp_mono n :
  (∀ p st res, run ActionTypes code n p st = Some res →
     run ActionTypes code (S n) p st = Some res)
  ∧ (∀ f args st res, call ActionTypes code n f args st = Some res →
       call ActionTypes code (S n) f args st = Some res)
  ∧ (∀ a st res, dispatch ActionTypes code n a st = Some res →
       dispatch ActionTypes code (S n) a st = Some res)
  ∧ (∀ l i st res, notify ActionTypes code n l i st = Some res →
       notify ActionTypes code (S n) l i st = Some res).
Proof.
  induction n as [|n (IHrun & IHcall & IHdisp & IHnot)].
  - split_and!.
    + intros p st res; destruct p; simpl; done.
    + intros f args st res; destruct f as [| | | | | | | |[]]; simpl; done.
    + intros a st res; simpl. repeat case_match; done.
    + intros l i st res; simpl. repeat case_match; done.
  - assert (Hdisp : ∀ a st res,
               dispatch ActionTypes code (S n) a st = Some res →
               dispatch ActionTypes code (S (S n)) a st = Some res).
    { intros a st res. rewrite !dispatch_S.
      destruct (negb _); [done|]. case_bool_decide; [done|].
      destruct (isDispatching st); [done|]. cbv zeta.
      destruct (call _ _ n _ _ _) as [[[s|e] st2]|] eqn:Hcall; [| |done].
      - rewrite (IHcall _ _ _ _ Hcall).
        destruct (notify _ _ n _ _ _) as [[[v|e] st5]|] eqn:Hnot; [| |done].
        + by rewrite (IHnot _ _ _ _ Hnot).
        + by rewrite (IHnot _ _ _ _ Hnot).
      - by rewrite (IHcall _ _ _ _ Hcall). }
    split_and!.
    + intros p st res; destruct p as [v|e|f args k|k|c k]; try done.
      * rewrite !run_Call_S.
        destruct (call _ _ n f args st) as [[c st2]|] eqn:Hcall; [|done].
        rewrite (IHcall _ _ _ _ Hcall). apply IHrun.
      * apply IHrun.
      * apply IHrun.
    + intros f args st res; destruct f as [| | | | | | |id|[]]; try done.
      * apply IHrun.
      * apply IHdisp.
      * rewrite !call_replaceReducer_S.
        unfold replaceReducer, replaceReducer_with.
        destruct (negb _); [done|]. cbn [action_literal].
        destruct (dispatch _ _ n _ _) as [[[v|e] st2]|] eqn:Hd; [| |done];
          by rewrite (IHdisp _ _ _ Hd).
    + exact Hdisp.
    + intros l i st res. rewrite !notify_S.
      destruct (array_at st l !! i) as [li|]; [|done].
      destruct (call _ _ n li [] _) as [[[v|e] st2]|] eqn:Hcall; [| |done].
      * rewrite (IHcall _ _ _ _ Hcall). apply IHnot.
      * by rewrite (IHcall _ _ _ _ Hcall).
Qed.

(** A result reached with some fuel is the result with any more. *)
Lemma dispatch_mono n m a st res :
  n ≤ m → dispatch ActionTypes code n a st = Some res →
  dispatch ActionTypes code m a st = Some res.
Proof.
  induction 1 as [|m _ IH]; [done|]. intros H. by apply interp_mono, IH.
Qed.

Lemma dispatch_deterministic n m a st res res' :
  dispatch ActionTypes code n a st = Some res →
  dispatch ActionTypes code m a st = Some res' → res = res'.
Proof.
  intros H H'.
  apply (dispatch_mono n (n `max` m)) in H; [|lia].
  apply (dispatch_mono m (n `max` m)) in H'; [|lia]. congruence.
Qed.

(** *** Stores that can arise *)

(** A store made by [createStore] and then used by client code in any way
    is well-formed and consistent. *)
Lemma session_invariants fuel reducer preloadedState enhancer c st0 fuel' p r st :
  createStore ActionTypes code fuel reducer preloadedState enhancer c
    = Some (Created st0) →
  run ActionTypes code fuel' p st0 = Some (r, st) →
  wf st ∧ consistent st ∧ isDispatching st = false.
Proof.
  intros (Hwf & _ & Hd & Hc)%createStore_aliased Hrun%run_evolves.
  split_and!.
  - by apply (ev_wf _ _ Hrun).
  - by apply (ev_consistent _ _ Hrun).
  - by rewrite (ev_guard _ _ Hrun).
Qed.
End StoreFacts.

(** ** Composition *)

Module ComposeFacts.
Import Compose.
Section compose.
Context {M : Type → Type} `{!MRet M, !MBind M}.
Context {V : Type} (undefined : V).
Implicit Types (f g h : @fn M V).

(** Adding a function on the right: it runs first, on the whole argument
    list, and hands its one result to the composition of the rest. *)
Lemma compose_snoc f rest h :
  compose undefined (f :: rest ++ [h])
  = λ args, h args ≫= λ r, compose undefined (f :: rest) [r].
Proof.
  assert (∀ fs, compose undefined (f :: fs) = reduce reducer_step f fs) as Hred
    by by intros [|].
  rewrite !Hred. unfold reduce. by rewrite foldl_snoc.
Qed.

(** C7.  [compose()] returns its first argument; [compose(f)] is [f];
    [compose(f, g, h)] calls [h] on the arguments it is given, [g] on the
    one result of [h], and [f] on the one result of [g]. *)
Theorem compose_right_to_left :
  (∀ x rest, compose (M := M) undefined [] (x :: rest) = mret x)
  ∧ (∀ f, compose undefined [f] = f)
  ∧ (∀ f g h args,
       compose undefined [f; g; h] args
       = h args ≫= λ r, g [r] ≫= λ r', f [r']).
Proof. done. Qed.
End compose.

(** With functions that may fail: the rightmost one sees both arguments,
    the others one result each, and a failure on the way is the failure
    of the whole. *)
Example compose_on_option :
  compose (M := option) 0
    [(λ args, Some (default 0 (head args) + 1));
     (λ args, Some (2 * default 0 (head args)));
     (λ args, Some (sum_list args))] [3; 4] = Some 15
  ∧ compose (M := option) 0
      [(λ args, Some (default 0 (head args) + 1));
       (λ _, None);
       (λ args, Some (sum_list args))] [3; 4] = None.
Proof. done. Qed.
End ComposeFacts.

(** ** The properties at work on the small application *)

Section ScenarioFacts.
Import Scenario.

Lemma created_wf : wf created.
Proof. unfold wf. simpl. lia. Qed.

Lemma subscribed_wf : wf subscribed.
Proof. unfold wf. simpl. lia. Qed.

Lemma subscribed_consistent : consistent subscribed.
Proof.
  split.
  - intros [|[|h]] l b; simpl; intros [= <- <-] || intros [=]; reflexivity.
  - intros [] Hl; try discriminate Hl; simpl;
      repeat (case_bool_decide; simpl); lia.
Qed.

Lemma watched_wf : wf watched.
Proof. unfold wf. simpl. lia. Qed.

Lemma counter_is_pure : pure_reducer code (VFunction counter) count.
Proof. exists counter. by split. Qed.

Lemma idle_returns : returning code (VFunction idle).
Proof. by exists idle, VUndefined. Qed.

(** How the stores of the scenario come about. *)
Example created_by_createStore :
  createStore actionTypes code 2 (VFunction counter) VUndefined VUndefined 0
  = Some (Created created).
Proof. reflexivity. Qed.

Example subscribed_by_subscribe :
  ∃ st, subscribe (VFunction unsubscribe_self) created
          = (Normal (VNative (NUnsubscribe 0)), st)
        ∧ subscribe (VFunction subscribe_tick) st
          = (Normal (VNative (NUnsubscribe 1)), subscribed).
Proof. eexists. evaluate. Qed.

Example probed_by_use :
  ∃ st0 st1,
    createStore actionTypes code 3 (VFunction probe) VUndefined VUndefined 0
      = Some (Created st0)
    ∧ subscribe (VFunction tick) st0 = (Normal (VNative (NUnsubscribe 0)), st1)
    ∧ unsubscribe 0 st1 = (Normal VUndefined, probed).
Proof. do 2 eexists. evaluate. Qed.

(** The spec's counter scenario: three INCs give 3, and a listener has
    been called three times. *)
Example three_increments :
  ∃ st1 st,
    subscribe (VFunction tick) created = (Normal (VNative (NUnsubscribe 0)), st1)
    ∧ dispatch_all actionTypes code 5 [inc; inc; inc] st1
      = Some (Normal VUndefined, st)
    ∧ getState st = (Normal (VNumber 3), st)
    ∧ invoked st = [VFunction tick; VFunction tick; VFunction tick]
    ∧ client st = 3.
Proof. do 2 eexists. evaluate. Qed.

(** A listener that removes itself still runs in the pass that is under
    way, and is gone from the next; a listener registered during a pass
    first runs in the next. *)
Example self_removal_and_late_arrival :
  ∃ st1 st2,
    dispatch actionTypes code 6 inc subscribed = Some (Normal inc, st1)
    ∧ invoked st1 = [VFunction unsubscribe_self; VFunction subscribe_tick]
    ∧ dispatch actionTypes code 6 inc st1 = Some (Normal inc, st2)
    ∧ invoked st2 = invoked st1 ++ [VFunction subscribe_tick; VFunction tick].
Proof. do 2 eexists. evaluate. Qed.

(** *** The theorems instantiated *)

Lemma dispatch_sequence_is_fold_witness :
  ∃ st0 st,
    createStore actionTypes code 2 (VFunction counter) VUndefined VUndefined 0
      = Some (Created st0)
    ∧ currentState st0
      = count VUndefined
          (VObject (ByStore 0) ProtoObject
             [("type", VString (INIT actionTypes))])
    ∧ dispatch_all actionTypes code 2 [inc; inc; inc] st0
      = Some (Normal VUndefined, st)
    ∧ getState st = (Normal (foldl count (currentState st0) [inc; inc; inc]), st).
Proof.
  apply (dispatch_sequence_is_fold actionTypes code (VFunction counter) count
           VUndefined [inc; inc; inc] 0 0).
  - exists counter. split; reflexivity.
  - discriminate.
  - repeat constructor; discriminate.
Defined.

Lemma notification_pass_uses_snapshot_witness :
  dispatch actionTypes code 6 inc subscribed
  = dispatch_snapshot actionTypes code 6 inc subscribed.
Proof.
  refine (proj1 (notification_pass_uses_snapshot actionTypes code subscribed
                   _ _) 6 inc).
  - unfold wf. simpl. lia.
  - exact subscribed_consistent.
Defined.

Lemma guard_rejects_reentrant_calls_witness :
  unsubscribe 0 counting
  = (Abrupt (StoreError UnsubscribeWhileReducing), counting).
Proof.
  refine (proj1 (proj2 (proj2
            (guard_rejects_reentrant_calls actionTypes code counting _)))
            0 (VFunction tick) _); reflexivity.
Defined.

Lemma dispatch_releases_guard_witness :
  dispatch actionTypes code 3 inc fragile
  = Some (Abrupt (UserThrow (VString "boom")),
          set_isDispatching false (set_isDispatching true fragile))
  ∧ isDispatching (set_isDispatching false (set_isDispatching true fragile))
    = false.
Proof.
  refine (proj2 (dispatch_releases_guard actionTypes code inc fragile _)
            2 (UserThrow (VString "boom")) (set_isDispatching true fragile) _ _).
  - reflexivity.
  - split; [reflexivity|discriminate].
  - reflexivity.
Defined.

Lemma dispatch_returns_action_witness :
  ∃ st', dispatch actionTypes code 4 inc watched = Some (Normal inc, st').
Proof.
  refine (proj2 (dispatch_returns_action actionTypes code inc watched)
            count 4 _ _ _ _ _ _).
  - exists counter. split; reflexivity.
  - unfold wf. simpl. lia.
  - reflexivity.
  - split; [reflexivity|discriminate].
  - repeat constructor; exists idle, VUndefined; split; reflexivity.
  - simpl. lia.
Defined.

Lemma dispatch_rejects_invalid_action_witness :
  dispatch actionTypes code 0 untyped created
  = Some (Abrupt (StoreError ActionTypeUndefined), created).
Proof.
  refine (proj1 (proj2
            (dispatch_rejects_invalid_action actionTypes code 0 untyped created))
            _ _); reflexivity.
Defined.


Lemma unsubscribe_idempotent_witness :
  unsubscribe 0 probed = (Normal VUndefined, probed).
Proof.
  refine (proj1 (unsubscribe_idempotent actionTypes code 0 (VFunction tick)
                   probed) _).
  reflexivity.
Defined.

Lemma failed_reducer_leaves_store_unchanged_witness :
  ∃ st', dispatch actionTypes code 3 inc fragile
           = Some (Abrupt (UserThrow (VString "boom")), st')
         ∧ same_observable fragile st'.
Proof.
  refine (failed_reducer_leaves_store_unchanged actionTypes code 2 inc fragile
            (UserThrow (VString "boom")) (set_isDispatching true fragile) _ _ _).
  - split; [reflexivity|discriminate].
  - reflexivity.
  - reflexivity.
Defined.

(** *** Where the spec's wording goes too far *)

(** C3 as it was worded.  Inside a running reducer a call to an
    [unsubscribe] closure that was used before returns quietly: the
    reducer [probe] makes that call and reports that it returned.  And
    [subscribe] of something that is not a function is refused for that,
    not for the reducer running. *)
Lemma used_handle_returns_inside_reducer :
  isDispatching reducing = true
  ∧ unsubscribe 0 reducing = (Normal VUndefined, reducing)
  ∧ (∃ st, dispatch actionTypes code 3 inc probed = Some (Normal inc, st)
           ∧ currentState st = VString "returned")
  ∧ subscribe VUndefined reducing
    = (Abrupt (StoreError ListenerNotFunction), reducing)
  ∧ classify ListenerNotFunction ≠ ReentrancyError.
Proof.
  split; [reflexivity|]. split; [reflexivity|].
  split; [eexists; evaluate|]. split; [reflexivity|discriminate].
Qed.

(** C9 as it was worded.  Not every call to a handle made during a
    dispatch throws. *)
Lemma unsubscribe_during_dispatch_may_return :
  ¬ (∀ (st : store nat) h,
       isDispatching st = true → h < length (subscriptions st) →
       ∃ e, (unsubscribe h st).1 = Abrupt e).
Proof.
  intros H. destruct (H reducing 0) as [e He]; [reflexivity|simpl; lia|].
  discriminate He.
Qed.

End ScenarioFacts.

(** * Further properties of the store *)

Section StoreMore.
Context {Client : Type}.
Variable ActionTypes : ActionTypesT.
Variable code : nat → list value → prog Client.

Local Abbreviation store := (store Client).
Local Abbreviation prog := (prog Client).
Implicit Types (st : store) (p : prog) (r : completion).

Lemma set_invoked_twice l1 l2 st :
  set_invoked l2 (set_invoked l1 st) = set_invoked l2 st.
Proof. done. Qed.

Lemma call_function_S n id args st :
  call ActionTypes code (S n) (VFunction id) args st
  = run ActionTypes code n (code id args) st.
Proof. done. Qed.

Lemma call_dispatch_S n args st :
  call ActionTypes code (S n) (VNative NDispatch) args st
  = dispatch ActionTypes code n (arg 0 args) st.
Proof. done. Qed.

Lemma call_unsubscribe fuel h args st :
  call ActionTypes code fuel (VNative (NUnsubscribe h)) args st
  = Some (unsubscribe h st).
Proof. by destruct fuel. Qed.

(** Listeners that just return are passed over, each leaving its mark in
    the history. *)
Lemma notify_snapshot_skip pre : ∀ rest k st,
  Forall (returning code) pre → 0 < k →
  notify_snapshot ActionTypes code (length pre + k) (pre ++ rest) st
  = notify_snapshot ActionTypes code k rest
      (set_invoked (invoked st ++ pre) st).
Proof.
  induction pre as [|l pre IH]; intros rest k st Hall Hk.
  - simpl. by rewrite app_nil_r, set_invoked_same.
  - apply Forall_cons in Hall as [(id & v & -> & Hcode) Hall].
    cbn [length app Nat.add notify_snapshot].
    destruct (length pre + k) as [|m] eqn:Hm; [lia|].
    rewrite call_function_S, Hcode, run_Ret. rewrite <- Hm.
    rewrite IH by done. cbn [invoked set_invoked].
    by rewrite set_invoked_twice, <- app_assoc.
Qed.

(** [subscribe] and [unsubscribe] touch the listener machinery only. *)
Lemma subscribe_keeps l st r st' :
  subscribe l st = (r, st') →
  currentReducer st' = currentReducer st
  ∧ currentState st' = currentState st
  ∧ isDispatching st' = isDispatching st
  ∧ invoked st' = invoked st
  ∧ client st' = client st.
Proof.
  unfold subscribe, ensureCanMutateNextListeners.
  repeat case_match; by intros [= <- <-].
Qed.

Lemma unsubscribe_keeps h st r st' :
  unsubscribe h st = (r, st') →
  currentReducer st' = currentReducer st
  ∧ currentState st' = currentState st
  ∧ isDispatching st' = isDispatching st
  ∧ invoked st' = invoked st
  ∧ client st' = client st.
Proof.
  unfold unsubscribe, ensureCanMutateNextListeners.
  repeat case_match; by intros [= <- <-].
Qed.

Lemma indexOf_from_absent i l xs ys :
  occurrences l xs = 0 →
  indexOf_from i l (xs ++ ys) = indexOf_from (i + Z.of_nat (length xs)) l ys.
Proof.
  revert i. induction xs as [|x xs IH]; intros i Hocc; simpl in *.
  - by rewrite Z.add_0_r.
  - destruct (strict_eq x l); [lia|]. rewrite IH by lia. f_equal. lia.
Qed.

(** [indexOf] finds a function at its first occurrence. *)
Lemma indexOf_first l pre post :
  typeof l = TFunction → occurrences l pre = 0 →
  indexOf l (pre ++ l :: post) = Z.of_nat (length pre).
Proof.
  intros Hl Hpre. unfold indexOf. rewrite indexOf_from_absent by done.
  simpl. by rewrite strict_eq_refl_function.
Qed.

Lemma run_Throw fuel e st :
  run ActionTypes code fuel (Throw e) st = Some (Abrupt e, st).
Proof. by destruct fuel. Qed.

(** With a pure reducer, [dispatch] stores the new state, releases the
    guard, takes the staging list and runs the pass over it. *)
Lemma dispatch_pure_pass f n a st :
  pure_reducer code (currentReducer st) f →
  wf st → isDispatching st = false → well_formed a →
  dispatch ActionTypes code (S (S n)) a st
  = match notify_snapshot ActionTypes code (S n)
            (array_at st (nextListeners st))
            (set_currentListeners (nextListeners st)
               (set_isDispatching false
                  (set_currentState (f (currentState st) a) st))) with
    | Some (Normal _, st') => Some (Normal a, st')
    | other => other
    end.
Proof.
  intros (id & Hr & Hcode) Hwf Hd [Hp Ht].
  rewrite dispatch_is_snapshot by done. unfold dispatch_snapshot.
  rewrite Hp. simpl. rewrite bool_decide_eq_false_2 by done. rewrite Hd.
  rewrite Hr. simpl. by rewrite Hcode, run_Ret.
Qed.

(** *** Listeners that throw, listeners that read the state *)

(** The pass over a list in two parts. *)
Lemma notify_snapshot_app pre : ∀ n rest st,
  notify_snapshot ActionTypes code n (pre ++ rest) st
  = match notify_snapshot ActionTypes code n pre st with
    | Some (Normal _, st') =>
        notify_snapshot ActionTypes code (n - length pre) rest st'
    | other => other
    end.
Proof.
  induction pre as [|l pre IH]; intros n rest st.
  - simpl. by rewrite Nat.sub_0_r.
  - destruct n as [|n]; [done|]. cbn [app notify_snapshot length Nat.sub].
    destruct (call _ _ n l [] _) as [[[v|e] st2]|]; [|done|done].
    apply IH.
Qed.

(** X1.  [dispatch] has no handler around [listener()].  Whatever the
    reducer and the listeners are: once the reducer has returned and the
    listeners before it in the list have returned, a listener whose call
    throws makes [dispatch] throw the same, with the store as that call
    left it, so that the pass calls none of the listeners after it, and
    with the guard released.  The reducer's result was stored before the
    first listener ran. *)
Theorem throwing_listener_ends_the_pass n m a st s st2 pre l post v st5 e st6 :
  wf st → isDispatching st = false → well_formed a →
  call ActionTypes code n (currentReducer st) [currentState st; a]
    (set_isDispatching true st) = Some (Normal s, st2) →
  array_at st (nextListeners st) = pre ++ l :: post →
  notify_snapshot ActionTypes code n pre
    (set_currentListeners (nextListeners st2)
       (set_isDispatching false (set_currentState s st2)))
    = Some (Normal v, st5) →
  n = length pre + S m →
  call ActionTypes code m l [] (set_invoked (invoked st5 ++ [l]) st5)
    = Some (Abrupt e, st6) →
  dispatch ActionTypes code (S n) a st = Some (Abrupt e, st6)
  ∧ isDispatching st6 = false.
Proof.
  intros Hwf Hd Ha Hcall Hxs Hpre Hn Hl.
  assert (dispatch ActionTypes code (S n) a st = Some (Abrupt e, st6)) as H.
  { rewrite dispatch_is_snapshot by done. destruct Ha as [Hp Ht].
    unfold dispatch_snapshot. rewrite Hp. simpl.
    rewrite bool_decide_eq_false_2 by done. rewrite Hd.
    simpl in Hcall. rewrite Hcall.
    apply call_evolves in Hcall.
    destruct (ev_reducing _ _ Hcall eq_refl) as (_ & _ & Hn2 & _ & Ha2 & _).
    simpl in Hn2, Ha2.
    assert (array_at
              (set_currentListeners (nextListeners st2)
                 (set_isDispatching false (set_currentState s st2)))
              (nextListeners st2) = pre ++ l :: post) as ->.
    { unfold array_at in *. simpl. by rewrite Ha2, Hn2. }
    rewrite notify_snapshot_app, Hpre.
    replace (n - length pre) with (S m) by lia.
    cbn [notify_snapshot]. by rewrite Hl. }
  split; [done|]. apply dispatch_evolves in H.
  by rewrite (ev_guard _ _ H).
Qed.


(** *** Counting notifications *)

(** X3.  With a pure reducer and listeners that just return, a run of
    dispatches calls every staged listener once per action, in the order
    of the list, and leaves the fold of the reducer as the state. *)
Theorem each_dispatch_notifies_once f fuel actions : ∀ st,
  pure_reducer code (currentReducer st) f →
  wf st → isDispatching st = false →
  Forall (returning code) (array_at st (nextListeners st)) →
  length (array_at st (nextListeners st)) + 2 ≤ fuel →
  Forall well_formed actions →
  ∃ st', dispatch_all ActionTypes code fuel actions st
           = Some (Normal VUndefined, st')
    ∧ currentState st' = foldl f (currentState st) actions
    ∧ invoked st'
      = invoked st
        ++ concat (replicate (length actions) (array_at st (nextListeners st)))
    ∧ array_at st' (nextListeners st') = array_at st (nextListeners st).
Proof.
  induction actions as [|a actions IH]; intros st Hr Hwf Hd Hall Hfuel Hacts.
  - exists st. simpl. by rewrite app_nil_r.
  - apply Forall_cons in Hacts as [Ha Hacts].
    destruct (dispatch_pure ActionTypes code f fuel a st)
      as (st1 & H1 & Hs & Hr1 & Hd1 & Harr & Hn & Hc & _ & Hi); try done.
    assert (array_at st1 (nextListeners st1) = array_at st (nextListeners st))
      as Hsame by (unfold array_at; by rewrite Hn, Harr).
    destruct (IH st1) as (st' & H' & Hs' & Hi' & Ha'); try done.
    + by rewrite Hr1.
    + destruct Hwf. unfold wf. by rewrite Hc, Hn, Harr.
    + by rewrite Hsame.
    + by rewrite Hsame.
    + exists st'. cbn [dispatch_all]. rewrite H1. split_and!; try done.
      * by rewrite Hs', Hs.
      * rewrite Hi', Hi, Hsame. simpl. by rewrite <- app_assoc.
      * by rewrite Ha', Hsame.
Qed.

(** X4.  With a pure reducer and listeners that just return: once its
    only subscription is switched off, a listener is no longer called; the
    next dispatch calls the others, in their order, and not it. *)
Theorem unsubscribed_listener_is_not_called f a h l st fuel :
  pure_reducer code (currentReducer st) f →
  wf st → consistent st → isDispatching st = false → well_formed a →
  Forall (returning code) (array_at st (nextListeners st)) →
  subscriptions st !! h = Some (l, true) →
  live l (subscriptions st) = 1 →
  length (array_at st (nextListeners st)) + 1 ≤ fuel →
  ∃ st1 st2 pre post,
    unsubscribe h st = (Normal VUndefined, st1)
    ∧ dispatch ActionTypes code fuel a st1 = Some (Normal a, st2)
    ∧ array_at st (nextListeners st) = pre ++ l :: post
    ∧ invoked st2 = invoked st ++ pre ++ post
    ∧ occurrences l (pre ++ post) = 0.
Proof.
  intros Hr Hwf Hcons Hd Ha Hall Hh Hlive Hfuel.
  destruct (unsubscribe_removes h l st Hwf Hcons Hd Hh)
    as (st1 & pre & post & H1 & _ & Hxs & Hpre & Hn1).
  pose proof (evolves_unsubscribe _ _ _ _ H1) as Hev.
  destruct (unsubscribe_keeps _ _ _ _ H1) as (Hr1 & Hs1 & Hd1 & Hi1 & _).
  rewrite Hxs in Hall, Hfuel.
  apply Forall_app in Hall as [Hallpre [_ Hallpost]%Forall_cons].
  rewrite length_app in Hfuel. simpl in Hfuel.
  destruct (dispatch_pure ActionTypes code f fuel a st1)
    as (st2 & H2 & _ & _ & _ & _ & _ & _ & _ & Hi2).
  - by rewrite Hr1.
  - by apply (ev_wf _ _ Hev).
  - by rewrite Hd1.
  - done.
  - rewrite Hn1. by apply Forall_app.
  - rewrite Hn1, length_app. lia.
  - exists st1, st2, pre, post. split_and!; try done.
    + by rewrite Hi2, Hi1, Hn1.
    + destruct Hcons as [Hfun Hc].
      pose proof (Hc l (Hfun _ _ _ Hh)) as Hocc.
      rewrite Hxs, Hlive, occurrences_app in Hocc. simpl in Hocc.
      rewrite strict_eq_refl_function in Hocc by by eapply Hfun.
      rewrite occurrences_app. lia.
Qed.

(** X5.  [subscribe] and then the handle it returned: when the function
    was not in the staging list, the list is back to what it was.  When it
    was there already, [indexOf] finds the older entry and that one is
    taken out, so the function moves to the end of the list.  The list a
    pass may be reading is left alone. *)
Theorem subscribe_then_unsubscribe l st :
  wf st → isDispatching st = false → typeof l = TFunction →
  ∃ st1 st2,
    subscribe l st
      = (Normal (VNative (NUnsubscribe (length (subscriptions st)))), st1)
    ∧ unsubscribe (length (subscriptions st)) st1 = (Normal VUndefined, st2)
    ∧ (occurrences l (array_at st (nextListeners st)) = 0 →
       array_at st2 (nextListeners st2) = array_at st (nextListeners st))
    ∧ (∀ pre post,
         array_at st (nextListeners st) = pre ++ l :: post →
         occurrences l pre = 0 →
         array_at st2 (nextListeners st2) = pre ++ post ++ [l])
    ∧ array_at st2 (currentListeners st2) = array_at st (currentListeners st).
Proof.
  intros Hwf Hd Hl.
  destruct (subscribe_idle l st Hwf Hd Hl)
    as (st1 & H1 & _ & Hc1 & Ha1 & Hn1 & Hsub1).
  pose proof (evolves_subscribe _ _ _ _ H1) as Hev.
  assert (subscriptions st1 !! length (subscriptions st) = Some (l, true))
    as Hh by (rewrite Hsub1; apply list_lookup_middle; done).
  destruct (unsubscribe_idle (length (subscriptions st)) l st1)
    as (st2 & H2 & _ & Hc2 & Ha2 & Hn2 & _); try done.
  { by apply (ev_wf _ _ Hev). }
  { by rewrite (ev_guard _ _ Hev). }
  exists st1, st2. rewrite Hn1 in Hn2. split_and!; try done.
  - intros Habsent. rewrite Hn2.
    rewrite <- (app_nil_r (array_at st (nextListeners st))) at 1.
    rewrite <- app_assoc. cbn [app].
    rewrite indexOf_first by done.
    rewrite splice1_middle. by rewrite app_nil_r.
  - intros pre post Hxs Hpre. rewrite Hn2, Hxs.
    rewrite <- app_assoc. cbn [app].
    rewrite indexOf_first by done.
    by rewrite splice1_middle.
  - by rewrite Ha2, Ha1.
Qed.

(** X6.  In a store made by [createStore] and used in any way, the
    listener of every subscription that is still on is in the staging
    list.  So the [indexOf] in [unsubscribe] never answers -1, and the
    [splice] never takes out the last element in place of the listener's. *)
Theorem live_listener_is_staged
    fuel reducer preloadedState enhancer c st0 fuel' p r st h l :
  createStore ActionTypes code fuel reducer preloadedState enhancer c
    = Some (Created st0) →
  run ActionTypes code fuel' p st0 = Some (r, st) →
  subscriptions st !! h = Some (l, true) →
  ∃ pre post,
    array_at st (nextListeners st) = pre ++ l :: post
    ∧ occurrences l pre = 0
    ∧ indexOf l (array_at st (nextListeners st)) = Z.of_nat (length pre)
    ∧ splice1 (indexOf l (array_at st (nextListeners st)))
        (array_at st (nextListeners st)) = pre ++ post.
Proof.
  intros Hcreate Hrun Hh.
  destruct (session_invariants _ _ _ _ _ _ _ _ _ _ _ _ Hcreate Hrun)
    as (Hwf & [Hfun Hc] & Hd).
  pose proof (Hfun _ _ _ Hh) as Hl.
  pose proof (live_switch_off l h l _ Hh) as Hlive.
  rewrite strict_eq_refl_function in Hlive by done.
  destruct (splice_indexOf l (array_at st (nextListeners st)))
    as (pre & x & post & Hxs & Hx & Hpre & Hsp).
  { rewrite Hc by done. lia. }
  apply strict_eq_function in Hx as ->; [|done].
  exists pre, post. split_and!; try done.
  rewrite Hxs at 1. by apply indexOf_first.
Qed.

(** A listener that just returns is not one whose body is a call. *)
Lemma returning_are_others id f args k pre :
  (∀ args', code id args' = Call f args k) →
  Forall (returning code) pre → occurrences (VFunction id) pre = 0.
Proof.
  intros Hcode. induction 1 as [|x pre (id' & v & -> & Hret) _ IH]; [done|].
  simpl. case_bool_decide as Heq; [|done].
  subst id'. specialize (Hcode []). by rewrite Hret in Hcode.
Qed.

(** X14.  With a pure reducer and other listeners that just return, a
    listener may dispatch: the guard is released before the pass.  The
    dispatch it makes is carried through, its own pass included, before the
    listener goes on and before the outer pass reaches the listeners after
    it.  The listener here first removes itself, so the inner pass, which
    starts from the staging list, calls the others and not it; the outer
    pass then ends over the list it began with.  The state is the
    reducer's result for the two actions in turn. *)
Theorem listener_may_dispatch f a b st h id pre post fuel :
  pure_reducer code (currentReducer st) f →
  wf st → isDispatching st = false → well_formed a → well_formed b →
  array_at st (nextListeners st) = pre ++ VFunction id :: post →
  Forall (returning code) pre → Forall (returning code) post →
  subscriptions st !! h = Some (VFunction id, true) →
  (∀ args, code id args
           = Call (VNative (NUnsubscribe h)) []
               (λ _, Call (VNative NDispatch) [b]
                       (λ r, match r with
                             | Normal _ => Ret VUndefined
                             | Abrupt e => Throw e
                             end))) →
  2 * length pre + length post + 8 ≤ fuel →
  ∃ st', dispatch ActionTypes code fuel a st = Some (Normal a, st')
    ∧ getState st' = (Normal (f (f (currentState st) a) b), st')
    ∧ invoked st'
      = invoked st ++ pre ++ [VFunction id] ++ (pre ++ post) ++ post
    ∧ array_at st' (nextListeners st') = pre ++ post.
Proof.
  intros Hr Hwf Hd Ha Hb Hxs Hpre Hpost Hh Hcode Hfuel.
  pose proof (returning_are_others _ _ _ _ _ Hcode Hpre) as Hocc.
  set (K := length pre + length post) in *.
  assert (∃ st',
    dispatch ActionTypes code
      (S (S (length pre + S (S (S (S (S (S K)))))))) a st
    = Some (Normal a, st')
    ∧ getState st' = (Normal (f (f (currentState st) a) b), st')
    ∧ invoked st'
      = invoked st ++ pre ++ [VFunction id] ++ (pre ++ post) ++ post
    ∧ array_at st' (nextListeners st') = pre ++ post)
    as (st' & H & Hrest).
  { rewrite (dispatch_pure_pass f) by done. rewrite Hxs.
    set (st4 := set_currentListeners _ _).
    replace (S (length pre + S (S (S (S (S (S K)))))))
      with (length pre + S (S (S (S (S (S (S K))))))) by lia.
    rewrite notify_snapshot_skip by (done || lia).
    cbn [notify_snapshot].
    rewrite call_function_S, Hcode, run_Call_S, call_unsubscribe.
    set (st5 := set_invoked _ (set_invoked _ st4)).
    assert (wf st5) as Hwf5 by (destruct Hwf; by split).
    destruct (unsubscribe_idle h (VFunction id) st5)
      as (st6 & H6 & _ & _ & _ & Hn6 & _); try done.
    destruct (unsubscribe_keeps _ _ _ _ H6) as (Hr6 & Hs6 & Hd6 & Hi6 & _).
    pose proof (evolves_unsubscribe _ _ _ _ H6) as Hev6.
    assert (array_at st6 (nextListeners st6) = pre ++ post) as Hlist.
    { rewrite Hn6. change (array_at st5 (nextListeners st5))
        with (array_at st (nextListeners st)). rewrite Hxs.
      rewrite indexOf_first by done. apply splice1_middle. }
    rewrite H6, run_Call_S, call_dispatch_S.
    change (arg 0 [b]) with b.
    destruct (dispatch_pure ActionTypes code f (S (S K)) b st6)
      as (st7 & H7 & Hs7 & _ & Hd7 & Harr7 & Hn7 & _ & _ & Hi7); try done.
    { by rewrite Hr6. }
    { by apply (ev_wf _ _ Hev6). }
    { rewrite Hlist. by apply Forall_app. }
    { rewrite Hlist, length_app. unfold K. lia. }
    rewrite H7, run_Ret.
    rewrite notify_snapshot_returning by (done || lia).
    eexists. split; [done|]. split_and!.
    - unfold getState. simpl. by rewrite Hd7, Hs7, Hs6.
    - simpl. rewrite Hi7, Hlist, Hi6. simpl. by rewrite <- !app_assoc.
    - unfold array_at in *. simpl. by rewrite Hn7, Harr7. }
  exists st'. split; [|done].
  eapply dispatch_mono; [|exact H]. unfold K. lia.
Qed.

(** *** Replacing the reducer *)

(** X7.  [replaceReducer] with a pure reducer, on an idle store whose
    staged listeners just return: the new reducer is in place, the state
    is what it makes of the old state and a new REPLACE action, and every
    staged listener has been called once; no dispatch by the caller is
    needed. *)
Theorem replaceReducer_rehydrates g nextReducer st fuel :
  pure_reducer code nextReducer g →
  wf st → isDispatching st = false →
  Forall (returning code) (array_at st (nextListeners st)) →
  length (array_at st (nextListeners st)) + 2 ≤ fuel →
  ∃ st', replaceReducer ActionTypes code fuel nextReducer st
           = Some (Normal VUndefined, st')
    ∧ currentReducer st' = nextReducer
    ∧ getState st'
      = (Normal (g (currentState st)
                   (VObject (ByStore (literals st)) ProtoObject
                      [("type", VString (REPLACE ActionTypes))])), st')
    ∧ invoked st' = invoked st ++ array_at st (nextListeners st).
Proof.
  intros Hg Hwf Hd Hall Hfuel. unfold replaceReducer, replaceReducer_with.
  destruct Hg as (id & -> & Hcode).
  rewrite bool_decide_eq_true_2 by done. cbn [negb action_literal].
  set (st0 := set_literals _ _). set (a := VObject _ _ _).
  destruct (dispatch_pure ActionTypes code g fuel a st0)
    as (st' & H & Hs & Hr & Hd' & _ & _ & _ & _ & Hi); try done.
  { by exists id. }
  rewrite H. exists st'. split_and!; try done.
  unfold getState. by rewrite Hd', Hs.
Qed.

(** X8.  [replaceReducer] refuses what is not a function before it touches
    anything.  Called with a function while a reducer is running, it
    fails with the error for dispatching from a reducer, but the
    assignment [currentReducer = nextReducer] comes first and stays: the
    store is left with the new reducer and is otherwise as it was. *)
Theorem replaceReducer_failures nextReducer st fuel :
  (typeof nextReducer ≠ TFunction →
     replaceReducer ActionTypes code fuel nextReducer st
       = Some (Abrupt (StoreError NextReducerNotFunction), st))
  ∧ (typeof nextReducer = TFunction → isDispatching st = true →
     ∃ st', replaceReducer ActionTypes code fuel nextReducer st
              = Some (Abrupt (StoreError DispatchWhileReducing), st')
       ∧ currentReducer st' = nextReducer
       ∧ same_observable st st').
Proof.
  unfold replaceReducer, replaceReducer_with. split.
  - intros Hn. by rewrite bool_decide_eq_false_2.
  - intros Hn Hd. rewrite bool_decide_eq_true_2 by done.
    cbn [negb action_literal].
    exists (set_literals (S (literals st)) (set_currentReducer nextReducer st)).
    split; [|done]. destruct fuel; simpl; by rewrite Hd.
Qed.

(** *** Building a store *)

(** X9.  How [createStore] reads its arguments, before any reducer runs.
    A second argument that is a function, with no third, is taken as the
    enhancer and the preloaded state as absent.  An enhancer that is not a
    function is an error; one that is gets the construction handed over,
    reducer unchecked.  Without an enhancer, a reducer that is not a
    function is an error. *)
Theorem createStore_arguments fuel reducer preloadedState enhancer c :
  (typeof preloadedState = TFunction →
     createStore ActionTypes code fuel reducer preloadedState VUndefined c
     = Some (Delegated preloadedState reducer VUndefined))
  ∧ (typeof enhancer = TFunction →
     createStore ActionTypes code fuel reducer preloadedState enhancer c
     = Some (Delegated enhancer reducer preloadedState))
  ∧ (typeof enhancer ≠ TFunction → typeof enhancer ≠ TUndefined →
     createStore ActionTypes code fuel reducer preloadedState enhancer c
     = Some (Threw (StoreError EnhancerNotFunction)))
  ∧ (typeof preloadedState ≠ TFunction → typeof reducer ≠ TFunction →
     createStore ActionTypes code fuel reducer preloadedState VUndefined c
     = Some (Threw (StoreError ReducerNotFunction))).
Proof.
  unfold createStore. split_and!.
  - intros Hp. rewrite (bool_decide_eq_true_2 _ Hp). simpl.
    rewrite bool_decide_eq_false_2 by by rewrite Hp.
    by rewrite (bool_decide_eq_true_2 _ Hp).
  - intros He.
    rewrite (bool_decide_eq_false_2 (typeof enhancer = TUndefined))
      by by rewrite He.
    rewrite andb_false_r.
    rewrite (bool_decide_eq_false_2 (typeof enhancer = TUndefined))
      by by rewrite He.
    simpl. by rewrite (bool_decide_eq_true_2 _ He).
  - intros He Hu.
    rewrite (bool_decide_eq_false_2 (typeof enhancer = TUndefined)) by done.
    rewrite andb_false_r.
    rewrite (bool_decide_eq_false_2 (typeof enhancer = TUndefined)) by done.
    simpl. by rewrite bool_decide_eq_false_2.
  - intros Hp Hr.
    rewrite (bool_decide_eq_false_2 (typeof preloadedState = TFunction)) by done.
    simpl. by rewrite bool_decide_eq_false_2.
Qed.

(** X10.  Whatever the reducer is: when its call on the preloaded state
    and the INIT action throws, [createStore] throws the same and hands
    out no store. *)
Theorem createStore_reducer_failure n reducer preloadedState c e st2 :
  typeof reducer = TFunction →
  typeof preloadedState ≠ TFunction →
  call ActionTypes code n reducer
    [preloadedState;
     VObject (ByStore 0) ProtoObject [("type", VString (INIT ActionTypes))]]
    (mkStore reducer preloadedState 0 0 true [[]] [] 1 c [])
    = Some (Abrupt e, st2) →
  createStore ActionTypes code (S n) reducer preloadedState VUndefined c
  = Some (Threw e).
Proof.
  intros Hr Hp Hcall. unfold createStore.
  rewrite (bool_decide_eq_false_2 (typeof preloadedState = TFunction)) by done.
  cbn [andb action_literal]. rewrite !bool_decide_eq_true_2 by done.
  cbn [negb]. rewrite dispatch_unfold by done. simpl.
  change (mkStore reducer preloadedState 0 0 true [[]] [] 1 c [])
    with (set_isDispatching true
            (set_literals 1
               (mkStore reducer preloadedState 0 0 false [[]] [] 0 c [])))
    in Hcall.
  by rewrite (bool_decide_eq_true_2 _ Hr), Hcall.
Qed.
End StoreMore.

(** * Further properties of composition and of binding *)

Module ComposeMore.
Import Compose.
Section compose.
Context {M : Type → Type} `{!MRet M, !MBind M}.
Context {V : Type} (undefined : V).
Implicit Types (f g h : @fn M V).

(** X11.  However many functions are composed, the last one is called
    first, on all the arguments, and the composition of the others is
    called on its one result. *)
Theorem compose_last_runs_first f rest h args :
  compose undefined (f :: rest ++ [h]) args
  = h args ≫= λ r, compose undefined (f :: rest) [r].
Proof. by rewrite ComposeFacts.compose_snoc. Qed.

(** Two laws of a monad, as far as they are needed here. *)
Hypothesis bind_assoc : ∀ (m : M V) (k1 k2 : V → M V),
  (m ≫= k1) ≫= k2 = m ≫= (λ x, k1 x ≫= k2).
Hypothesis bind_ext : ∀ (m : M V) (k1 k2 : V → M V),
  (∀ x, k1 x = k2 x) → m ≫= k1 = m ≫= k2.

(** X12.  Compositions nest: composing the composition of [fs] with the
    composition of [gs] behaves as composing [fs ++ gs] in one go, so a
    chain of wrappers may be built in pieces. *)
Theorem compose_nests (fs gs : list (@fn M V)) args :
  fs ≠ [] → gs ≠ [] →
  compose undefined [compose undefined fs; compose undefined gs] args
  = compose undefined (fs ++ gs) args.
Proof using bind_assoc bind_ext.
  intros Hfs Hgs. revert args.
  induction gs as [|h gs IH] using rev_ind; [done|]. intros args.
  destruct fs as [|f rest]; [done|].
  change (compose undefined [compose undefined (f :: rest);
                             compose undefined (gs ++ [h])] args)
    with (compose undefined (gs ++ [h]) args
            ≫= λ r, compose undefined (f :: rest) [r]).
  destruct gs as [|g gs].
  - change ((f :: rest) ++ [] ++ [h]) with (f :: rest ++ [h]).
    by rewrite ComposeFacts.compose_snoc.
  - change ((f :: rest) ++ (g :: gs) ++ [h])
      with (f :: (rest ++ (g :: gs) ++ [h])).
    rewrite (app_assoc rest), ComposeFacts.compose_snoc.
    change ((g :: gs) ++ [h]) with (g :: gs ++ [h]).
    rewrite ComposeFacts.compose_snoc, bind_assoc.
    apply bind_ext. intros r.
    change (f :: rest ++ g :: gs) with ((f :: rest) ++ g :: gs).
    by rewrite <- IH.
Qed.
End compose.

Lemma compose_nests_witness :
  compose (M := option) 0
    [compose 0 [(λ args, Some (default 0 (head args) + 1))];
     compose 0 [(λ args, Some (2 * default 0 (head args)));
                (λ args, Some (sum_list args))]] [3; 4]
  = compose 0
      ([(λ args, Some (default 0 (head args) + 1))]
       ++ [(λ args, Some (2 * default 0 (head args)));
           (λ args, Some (sum_list args))]) [3; 4].
Proof.
  apply (compose_nests (M := option) 0).
  - by intros [].
  - intros [] k1 k2 H; simpl; [apply H|reflexivity].
  - discriminate.
  - discriminate.
Defined.
End ComposeMore.

Module BindActionCreatorsFacts.
Import Compose BindActionCreators.
Section bind.
Context {M : Type → Type} `{!MRet M, !MBind M}.
Context {V : Type}.
Implicit Types (dispatch : @fn M V) (props : gmap string (@property M V)).

Lemma bind_keys_lookup props dispatch keys : ∀ acc k,
  bind_keys keys props dispatch acc !! k
  = match (if decide (k ∈ keys) then props !! k ≫= bind_property dispatch
           else None) with
    | Some b => Some b
    | None => acc !! k
    end.
Proof.
  induction keys as [|key rest IH]; intros acc k; simpl; [done|].
  destruct (decide (k = key)) as [->|Hne].
  - rewrite (decide_True (P := key ∈ key :: rest)) by apply list_elem_of_here.
    destruct (props !! key) as [[f|v]|] eqn:Hkey; rewrite IH, ?Hkey; simpl.
    + rewrite lookup_insert_eq. by case_decide.
    + by case_decide.
    + by case_decide.
  - assert (k ∈ key :: rest ↔ k ∈ rest) as Hiff.
    { rewrite elem_of_cons. split; [by intros [?|?]|by right]. }
    rewrite (decide_ext _ _ _ _ Hiff).
    destruct (props !! key) as [[f|v]|]; rewrite IH; try done.
    by rewrite lookup_insert_ne.
Qed.

(** X13.  [bindActionCreators]: a function is wrapped; of an object,
    exactly the properties that are functions are kept, under their keys,
    each wrapped, and the others are dropped; a wrapped creator calls the
    creator on the arguments it gets and [dispatch] on the one result;
    [null] and what is neither object nor function are refused, the error
    naming what was received. *)
Theorem bindActionCreators_binds_functions dispatch :
  (∀ f, bindActionCreators (AFunction f) dispatch
        = inr (BFunction (bindActionCreator f dispatch)))
  ∧ (∀ props, bindActionCreators (AObject props) dispatch
              = inr (BObject (omap (bind_property dispatch) props)))
  ∧ (∀ props k f, props !! k = Some (PFunction f) →
       ∃ bound, bindActionCreators (AObject props) dispatch = inr (BObject bound)
         ∧ bound !! k = Some (bindActionCreator f dispatch))
  ∧ (∀ f args, bindActionCreator f dispatch args
               = f args ≫= λ action, dispatch [action])
  ∧ bindActionCreators ANull dispatch = inl (ExpectedObjectOrFunction "null")
  ∧ (∀ type, bindActionCreators (APrimitive type) dispatch
             = inl (ExpectedObjectOrFunction type)).
Proof.
  assert (∀ props, bindActionCreators (AObject props) dispatch
                   = inr (BObject (omap (bind_property dispatch) props)))
    as Hobj.
  { intros props. simpl. do 2 f_equal. apply map_eq. intros k.
    rewrite bind_keys_lookup, lookup_omap, lookup_empty. unfold keys_of.
    destruct (props !! k) as [p|] eqn:Hk; simpl.
    - rewrite decide_True.
      + by destruct (bind_property dispatch p).
      + apply list_elem_of_fmap. exists (k, p). split; [done|].
        by apply elem_of_map_to_list.
    - by case_decide. }
  split_and!; try done.
  intros props k f Hk. eexists. split; [apply Hobj|].
  by rewrite lookup_omap, Hk.
Qed.
End bind.
End BindActionCreatorsFacts.

(** * The further properties at work *)

Section MoreScenarioFacts.
Import Scenario Watching.

Lemma watching_counter_is_pure :
  pure_reducer Watching.code (VFunction Watching.counter) count.
Proof. exists Watching.counter. by split. Qed.

Lemma watching_returning id :
  id = Watching.idle ∨ id = quiet → returning Watching.code (VFunction id).
Proof. intros [->| ->]; by eexists _, VUndefined. Qed.

Lemma paired_consistent : consistent paired.
Proof.
  split.
  - intros [|[|h]] l b; simpl; intros [= <- <-] || intros [=]; reflexivity.
  - intros [] Hl; try discriminate Hl; simpl;
      repeat (case_bool_decide; simpl); lia.
Qed.

Lemma throwing_listener_ends_the_pass_witness :
  ∃ st6, dispatch actionTypes Watching.code 4 inc tripped
           = Some (Abrupt (UserThrow (VString "listener failed")), st6)
         ∧ isDispatching st6 = false.
Proof.
  eexists.
  eapply (throwing_listener_ends_the_pass actionTypes Watching.code 3 1 inc
            tripped _ _ [VFunction Watching.idle] (VFunction thrower)
            [VFunction reader]).
  - unfold wf. simpl. lia.
  - reflexivity.
  - split; [reflexivity|discriminate].
  - vm_compute. reflexivity.
  - reflexivity.
  - vm_compute. reflexivity.
  - reflexivity.
  - vm_compute. reflexivity.
Defined.


Lemma each_dispatch_notifies_once_witness :
  ∃ st', dispatch_all actionTypes Watching.code 4 [inc; inc; inc] calm
           = Some (Normal VUndefined, st')
    ∧ currentState st' = foldl count (currentState calm) [inc; inc; inc]
    ∧ invoked st'
      = invoked calm
        ++ concat (replicate (length [inc; inc; inc])
                     (array_at calm (nextListeners calm)))
    ∧ array_at st' (nextListeners st') = array_at calm (nextListeners calm).
Proof.
  apply (each_dispatch_notifies_once actionTypes Watching.code count 4
           [inc; inc; inc] calm).
  - exact watching_counter_is_pure.
  - unfold wf. simpl. lia.
  - reflexivity.
  - repeat constructor; apply watching_returning; by left.
  - simpl. lia.
  - repeat constructor; discriminate.
Defined.

Lemma unsubscribed_listener_is_not_called_witness :
  ∃ st1 st2 pre post,
    unsubscribe 1 paired = (Normal VUndefined, st1)
    ∧ dispatch actionTypes Watching.code 3 inc st1 = Some (Normal inc, st2)
    ∧ array_at paired (nextListeners paired) = pre ++ VFunction quiet :: post
    ∧ invoked st2 = invoked paired ++ pre ++ post
    ∧ occurrences (VFunction quiet) (pre ++ post) = 0.
Proof.
  apply (unsubscribed_listener_is_not_called actionTypes Watching.code count
           inc 1 (VFunction quiet) paired 3).
  - exact watching_counter_is_pure.
  - unfold wf. simpl. lia.
  - exact paired_consistent.
  - reflexivity.
  - split; [reflexivity|discriminate].
  - repeat constructor; apply watching_returning; by (left + right).
  - reflexivity.
  - reflexivity.
  - simpl. lia.
Defined.

Lemma subscribe_then_unsubscribe_witness :
  ∃ st1 st2,
    subscribe (VFunction reader) calm
      = (Normal (VNative (NUnsubscribe (length (subscriptions calm)))), st1)
    ∧ unsubscribe (length (subscriptions calm)) st1 = (Normal VUndefined, st2)
    ∧ (occurrences (VFunction reader) (array_at calm (nextListeners calm)) = 0 →
       array_at st2 (nextListeners st2) = array_at calm (nextListeners calm))
    ∧ (∀ pre post,
         array_at calm (nextListeners calm) = pre ++ VFunction reader :: post →
         occurrences (VFunction reader) pre = 0 →
         array_at st2 (nextListeners st2) = pre ++ post ++ [VFunction reader])
    ∧ array_at st2 (currentListeners st2)
      = array_at calm (currentListeners calm).
Proof.
  apply (subscribe_then_unsubscribe (VFunction reader) calm).
  - unfold wf. simpl. lia.
  - reflexivity.
  - reflexivity.
Defined.

Lemma live_listener_is_staged_witness :
  ∃ pre post,
    array_at (subscribe (VFunction tick) created).2
      (nextListeners (subscribe (VFunction tick) created).2)
    = pre ++ VFunction tick :: post
    ∧ occurrences (VFunction tick) pre = 0
    ∧ indexOf (VFunction tick)
        (array_at (subscribe (VFunction tick) created).2
           (nextListeners (subscribe (VFunction tick) created).2))
      = Z.of_nat (length pre)
    ∧ splice1
        (indexOf (VFunction tick)
           (array_at (subscribe (VFunction tick) created).2
              (nextListeners (subscribe (VFunction tick) created).2)))
        (array_at (subscribe (VFunction tick) created).2
           (nextListeners (subscribe (VFunction tick) created).2))
      = pre ++ post.
Proof.
  apply (live_listener_is_staged actionTypes Scenario.code 2
           (VFunction Scenario.counter) VUndefined VUndefined 0 created
           2 subscribing (Normal VUndefined) _ 0 (VFunction tick)).
  - reflexivity.
  - reflexivity.
  - reflexivity.
Defined.

Lemma listener_may_dispatch_witness :
  ∃ st', dispatch actionTypes Watching.code 11 inc relayed
           = Some (Normal inc, st')
    ∧ getState st' = (Normal (count (count (currentState relayed) inc) inc), st')
    ∧ invoked st'
      = invoked relayed ++ [VFunction Watching.idle] ++ [VFunction relay]
        ++ ([VFunction Watching.idle] ++ [VFunction Watching.idle])
        ++ [VFunction Watching.idle]
    ∧ array_at st' (nextListeners st')
      = [VFunction Watching.idle] ++ [VFunction Watching.idle].
Proof.
  apply (listener_may_dispatch actionTypes Watching.code count inc inc relayed
           1 relay [VFunction Watching.idle] [VFunction Watching.idle] 11).
  - exact watching_counter_is_pure.
  - unfold wf. simpl. lia.
  - reflexivity.
  - split; [reflexivity|discriminate].
  - split; [reflexivity|discriminate].
  - reflexivity.
  - repeat constructor; apply watching_returning; by left.
  - repeat constructor; apply watching_returning; by left.
  - reflexivity.
  - reflexivity.
  - simpl. lia.
Defined.

Lemma replaceReducer_rehydrates_witness :
  ∃ st', replaceReducer actionTypes Watching.code 4 (VFunction doubler) calm
           = Some (Normal VUndefined, st')
    ∧ currentReducer st' = VFunction doubler
    ∧ getState st'
      = (Normal (double (currentState calm)
                   (VObject (ByStore (literals calm)) ProtoObject
                      [("type", VString (REPLACE actionTypes))])), st')
    ∧ invoked st' = invoked calm ++ array_at calm (nextListeners calm).
Proof.
  apply (replaceReducer_rehydrates actionTypes Watching.code double
           (VFunction doubler) calm 4).
  - exists doubler. split; reflexivity.
  - unfold wf. simpl. lia.
  - reflexivity.
  - repeat constructor; apply watching_returning; by left.
  - simpl. lia.
Defined.

Lemma replaceReducer_failures_witness :
  ∃ st', replaceReducer actionTypes Watching.code 0 (VFunction doubler) busy
           = Some (Abrupt (StoreError DispatchWhileReducing), st')
    ∧ currentReducer st' = VFunction doubler
    ∧ same_observable busy st'.
Proof.
  apply (proj2 (replaceReducer_failures actionTypes Watching.code
                  (VFunction doubler) busy 0)); reflexivity.
Defined.

Lemma createStore_arguments_witness :
  createStore actionTypes Watching.code 0 (VFunction Watching.counter)
    (VFunction doubler) VUndefined VUndefined
  = Some (Delegated (VFunction doubler) (VFunction Watching.counter) VUndefined).
Proof.
  apply (proj1 (createStore_arguments actionTypes Watching.code 0
                  (VFunction Watching.counter) (VFunction doubler)
                  VUndefined VUndefined)).
  reflexivity.
Defined.

Lemma createStore_reducer_failure_witness :
  createStore actionTypes Watching.code 2 (VFunction thrower) VUndefined
    VUndefined VUndefined
  = Some (Threw (UserThrow (VString "listener failed"))).
Proof.
  eapply (createStore_reducer_failure actionTypes Watching.code 1
            (VFunction thrower) VUndefined VUndefined).
  - reflexivity.
  - discriminate.
  - vm_compute. reflexivity.
Defined.

Lemma bindActionCreators_binds_functions_witness :
  ∃ bound,
    BindActionCreators.bindActionCreators (M := option)
      (BindActionCreators.AObject
         {[ "add" := BindActionCreators.PFunction
                       (λ args : list nat, Some (sum_list args));
            "n" := BindActionCreators.POther 3 ]})
      (λ args, Some (2 * default 0 (head args)))
    = inr (BindActionCreators.BObject bound)
    ∧ bound !! "add"
      = Some (BindActionCreators.bindActionCreator
                (λ args : list nat, Some (sum_list args))
                (λ args, Some (2 * default 0 (head args)))).
Proof.
  apply (proj1 (proj2 (proj2
           (BindActionCreatorsFacts.bindActionCreators_binds_functions
              (M := option) (λ args, Some (2 * default 0 (head args))))))).
  reflexivity.
Defined.
End MoreScenarioFacts.
